(** * drl2svg: from a drill file to concentric circles

    A shallow embedding of [examples/drl2svg.go] and the proofs of what its
    specification says about it.  The program reads a drill file line by
    line, keeps a tool table and a handful of running values, collects the
    holes, and then draws every hole as a family of concentric circles.

    - Go's [float64] is the kernel's binary64 [float].  In [Drl] every
      arithmetic operation rounds on its own, to nearest with ties to
      even.  Go also allows a build to fuse a product with the addition or
      subtraction that uses it; [Fusing] has the scanning loop for such
      builds, and it differs from the one of [Drl] in the four edges only.
      The circle loop is modelled with every operation rounded on its own.
      Comparisons are the IEEE ones: [dr > 0] is [0 <? dr], false for NaN.
    - The two [fmt.Sscanf] calls belong to Go's library.  They are
      parameters of the program; [ScanModel] is an executable decoder for
      the plain decimal spellings, used to run the program on concrete
      files.
    - The input is the list of lines that [bufio.Scanner] hands out.
    - [log.Fatalf] ends the run: it is the [Fatal] outcome.
    - The calls on the canvas are recorded in order; what the canvas writes
      is not modelled.
    - The circle loop of a hole need not end, so it runs on fuel. *)

From Stdlib Require Import ZArith QArith List Ascii String Floats Lia.
From stdpp Require Import gmap strings list fin_maps pretty.

Set Warnings "-inexact-float".

(** ** Data *)

(** [type Hole struct { Radius, Cx, Cy float64 }] *)
Record Hole := mkHole { Radius : float; Cx : float; Cy : float }.

(** The variables of [main] that live across the scanning loop. *)
Record State := mkState {
  tools : gmap string float;
  holes : list Hole;
  toolRadius : float;
  maxToolDiameter : float;
  factor : float;
  leftEdge : float;
  rightEdge : float;
  topEdge : float;
  bottomEdge : float
}.

(** [make(map[string]float64)], a nil slice, and zero-valued floats. *)
Definition init : State :=
  mkState ∅ [] 0%float 0%float 0%float 0%float 0%float 0%float 0%float.

(** Result of a piece of the program that may call [log.Fatalf] on a line. *)
Inductive outcome (A : Type) : Type :=
| Done (a : A)
| Fatal (line : string).
Arguments Done {A} a.
Arguments Fatal {A} line.

(** The calls made on the canvas, in order. *)
Inductive call : Type :=
| StartviewUnit (w h : float) (unit : string) (x y vw vh : float)
| Circle (cx cy r : float)
| End.

(** [fmt.Sprint("T", tool)]: no space is added next to a string operand, and
    an [int] prints in decimal with a minus sign when negative. *)
Definition Sprint_T (tool : Z) : string := "T" +:+ pretty tool.

(** ** The program *)

Module Drl.

Section Program.

(** [fmt.Sscanf(line, "T%dC%f", &tool, &param1)] and
    [fmt.Sscanf(line, "X%fY%f", &param1, &param2)]; [Some] stands for
    [err == nil && n == 2]. *)
Variable Sscanf_TdCf : string -> option (Z * float).
Variable Sscanf_XfYf : string -> option (float * float).

(** [*bitSize] *)
Variable bitSize : float.

(** One iteration of the [for sc.Scan()] loop (lines 54-107). *)
Definition step (st : State) (line : string) : outcome State :=
  if String.eqb line "METRIC" then
    Done (mkState (tools st) (holes st) (toolRadius st) (maxToolDiameter st)
            1.0%float
            (leftEdge st) (rightEdge st) (topEdge st) (bottomEdge st))
  else if String.eqb line "INCH" then
    Done (mkState (tools st) (holes st) (toolRadius st) (maxToolDiameter st)
            25.4%float
            (leftEdge st) (rightEdge st) (topEdge st) (bottomEdge st))
  else
    match Sscanf_TdCf line with
    | Some (tool, param1) =>
        if (param1 <? bitSize)%float then Fatal line
        else
          let d := (param1 * factor st)%float in
          let maxToolDiameter' :=
            if Nat.eqb (size (tools st)) 0 || (maxToolDiameter st <? d)%float
            then d else maxToolDiameter st in
          Done (mkState (<[Sprint_T tool := d]> (tools st)) (holes st)
                  (toolRadius st) maxToolDiameter' (factor st)
                  (leftEdge st) (rightEdge st) (topEdge st) (bottomEdge st))
    | None =>
        match tools st !! line with
        | Some d =>
            Done (mkState (tools st) (holes st)
                    ((d - bitSize) * 0.5)%float
                    (maxToolDiameter st) (factor st)
                    (leftEdge st) (rightEdge st) (topEdge st) (bottomEdge st))
        | None =>
            match Sscanf_XfYf line with
            | Some (param1, param2) =>
                let h := mkHole (toolRadius st)
                           (param1 * factor st)%float
                           (param2 * factor st)%float in
                let first := Nat.eqb (length (holes st)) 0 in
                let left := (Cx h - toolRadius st)%float in
                let right := (Cx h + toolRadius st)%float in
                let top := (Cy h - toolRadius st)%float in
                let bottom := (Cy h + toolRadius st)%float in
                Done (mkState (tools st) (holes st ++ [h])
                        (toolRadius st) (maxToolDiameter st) (factor st)
                        (if first || (left <? leftEdge st)%float
                         then left else leftEdge st)
                        (if first || (rightEdge st <? right)%float
                         then right else rightEdge st)
                        (if first || (top <? topEdge st)%float
                         then top else topEdge st)
                        (if first || (bottomEdge st <? bottom)%float
                         then bottom else bottomEdge st))
            | None => Done st
            end
        end
    end.

(** The whole scanning loop, from a given state. *)
Fixpoint scan_lines (st : State) (lines : list string) : outcome State :=
  match lines with
  | [] => Done st
  | line :: rest =>
      match step st line with
      | Done st' => scan_lines st' rest
      | Fatal l => Fatal l
      end
  end.

(** Lines 113-116: the margin added once the input is consumed. *)
Definition expand (st : State) : State :=
  mkState (tools st) (holes st) (toolRadius st) (maxToolDiameter st)
    (factor st)
    (leftEdge st - maxToolDiameter st)%float
    (rightEdge st + maxToolDiameter st)%float
    (topEdge st - maxToolDiameter st)%float
    (bottomEdge st + maxToolDiameter st)%float.

(** Lines 43-116: everything before the output is opened. *)
Definition parse (lines : list string) : outcome State :=
  match scan_lines init lines with
  | Done st => Done (expand st)
  | Fatal l => Fatal l
  end.

(** Line 135. *)
Definition startview (st : State) : call :=
  StartviewUnit (rightEdge st - leftEdge st)%float
    (bottomEdge st - topEdge st)%float "mm"
    (leftEdge st) (topEdge st)
    (rightEdge st - leftEdge st)%float (bottomEdge st - topEdge st)%float.

(** Lines 138-140: [for dr := h.Radius; dr > 0; dr -= 0.45 * *bitSize].
    [None] when the fuel runs out before the condition fails. *)
Fixpoint radii_loop (fuel : nat) (dr : float) (radii : list float)
  : option (list float) :=
  match fuel with
  | O => None
  | S fuel' =>
      if (0 <? dr)%float
      then radii_loop fuel' (dr - 0.45 * bitSize)%float (radii ++ [dr])
      else Some radii
  end.

(** Lines 141-143: [for i := len(radii) - 1; i >= 0; i--], entered with
    [n = i + 1].  An index outside the slice would panic in Go; the loop
    never produces one. *)
Fixpoint circles_from (h : Hole) (radii : list float) (n : nat) : list call :=
  match n with
  | O => []
  | S i =>
      match radii !! i with
      | Some r => Circle (Cx h) (Cy h) r :: circles_from h radii i
      | None => []
      end
  end.

(** The body of [for _, h := range holes] for one hole. *)
Definition draw_hole (fuel : nat) (h : Hole) : option (list call) :=
  match radii_loop fuel (Radius h) [] with
  | Some radii => Some (circles_from h radii (length radii))
  | None => None
  end.

(** Lines 136-144. *)
Fixpoint draw_holes (fuel : nat) (hs : list Hole) : option (list call) :=
  match hs with
  | [] => Some []
  | h :: rest =>
      match draw_hole fuel h with
      | Some cs =>
          match draw_holes fuel rest with
          | Some cs' => Some (cs ++ cs')
          | None => None
          end
      | None => None
      end
  end.

(** [main] on the lines of the drill file: the canvas calls of a run that
    reaches [canvas.End()], [Fatal] for a run ended by [log.Fatalf], [None]
    when some circle loop is still running after [fuel] iterations. *)
Definition main (fuel : nat) (lines : list string)
  : option (outcome (list call)) :=
  match parse lines with
  | Fatal l => Some (Fatal l)
  | Done st =>
      match draw_holes fuel (holes st) with
      | Some cs => Some (Done (startview st :: cs ++ [End]))
      | None => None
      end
  end.

End Program.

End Drl.

Import Drl.

(** ** A decoder for the two line patterns *)

Module ScanModel.

(** Go's [fmt.Sscanf] is not part of the repository.  Section 6.1 of the
    specification gives the patterns [T<int>C<float>] and [X<float>Y<float>]
    and says that a malformed numeric field makes the line a non-match.
    The decoder reads the plain decimal subset: an optional sign and
    decimal digits for [<int>] (within [int64]); an optional sign, digits
    with an optional fraction, and an optional decimal exponent for
    [<float>], rounded to the nearest binary64 value (ties to even) and
    rejected when out of range.  As with [Sscanf], what follows the last
    field is not looked at.  Blanks before a number and the hexadecimal,
    infinity and NaN spellings are left out. *)

Definition is_digit (c : ascii) : bool :=
  (48 <=? nat_of_ascii c)%nat && (nat_of_ascii c <=? 57)%nat.

Definition digit_val (c : ascii) : Z := (Z.of_nat (nat_of_ascii c) - 48)%Z.

(** The longest run of digits at the head of [s], accumulated on [acc]:
    value, number of digits read, rest of the input. *)
Fixpoint digits (s : string) (acc : Z) (n : nat) : Z * nat * string :=
  match s with
  | String c s' =>
      if is_digit c then digits s' (10 * acc + digit_val c)%Z (S n)
      else (acc, n, s)
  | EmptyString => (acc, n, s)
  end.

(** An optional sign; [true] for minus. *)
Definition sign (s : string) : bool * string :=
  match s with
  | String c s' =>
      if Ascii.eqb c "-" then (true, s')
      else if Ascii.eqb c "+" then (false, s')
      else (false, s)
  | EmptyString => (false, s)
  end.

(** A literal character of the format. *)
Definition lit (c : ascii) (s : string) : option string :=
  match s with
  | String c' s' => if Ascii.eqb c c' then Some s' else None
  | EmptyString => None
  end.

(** The [%d] verb. *)
Definition scan_int (s : string) : option (Z * string) :=
  let '(neg, s1) := sign s in
  let '(v, n, s2) := digits s1 0 0 in
  let i := if neg then (- v)%Z else v in
  if Nat.eqb n 0 then None
  else if (- 2 ^ 63 <=? i)%Z && (i <? 2 ^ 63)%Z then Some (i, s2)
  else None.

(** The binary64 value nearest to [m * 10 ^ e10], for [m >= 0]. *)
Definition round_decimal (m e10 : Z) : spec_float :=
  match m with
  | Zpos _ =>
      if (0 <=? e10)%Z
      then binary_normalize prec emax (m * 10 ^ e10)%Z 0 false
      else
        let '(q, e, l) :=
          SFdiv_core_binary prec emax m 0 (10 ^ (- e10))%Z 0 in
        binary_round_aux prec emax false q e l
  | _ => S754_zero false
  end.

(** An optional exponent part: [None] for an exponent mark without
    digits. *)
Definition scan_exponent (s : string) : option (Z * string) :=
  match s with
  | String c s' =>
      if Ascii.eqb c "e" || Ascii.eqb c "E" then
        let '(neg, s1) := sign s' in
        let '(v, n, s2) := digits s1 0 0 in
        if Nat.eqb n 0 then None
        else Some (if neg then (- v)%Z else v, s2)
      else Some (0%Z, s)
  | EmptyString => Some (0%Z, s)
  end.

(** The [%f] verb. *)
Definition scan_float (s : string) : option (float * string) :=
  let '(neg, s1) := sign s in
  let '(ip, ni, s2) := digits s1 0 0 in
  let '(m, nf, s3) :=
    match lit "." s2 with
    | Some s' => digits s' ip 0
    | None => (ip, 0%nat, s2)
    end in
  if Nat.eqb (ni + nf) 0 then None
  else
    match scan_exponent s3 with
    | Some (e10, s4) =>
        match round_decimal m (e10 - Z.of_nat nf) with
        | S754_infinity _ => None
        | f => Some (SF2Prim (if neg then SFopp f else f), s4)
        end
    | None => None
    end.

(** Modelled from the spec: the pattern [T<int>C<float>] of section 6.1,
    standing for [fmt.Sscanf(line, "T%dC%f", &tool, &param1)] with both
    fields read. *)
Definition Sscanf_TdCf (line : string) : option (Z * float) :=
  match lit "T" line with
  | Some s1 =>
      match scan_int s1 with
      | Some (tool, s2) =>
          match lit "C" s2 with
          | Some s3 =>
              match scan_float s3 with
              | Some (param1, _) => Some (tool, param1)
              | None => None
              end
          | None => None
          end
      | None => None
      end
  | None => None
  end.

(** Modelled from the spec: the pattern [X<float>Y<float>] of section 6.1,
    standing for [fmt.Sscanf(line, "X%fY%f", &param1, &param2)] with both
    fields read. *)
Definition Sscanf_XfYf (line : string) : option (float * float) :=
  match lit "X" line with
  | Some s1 =>
      match scan_float s1 with
      | Some (param1, s2) =>
          match lit "Y" s2 with
          | Some s3 =>
              match scan_float s3 with
              | Some (param2, _) => Some (param1, param2)
              | None => None
              end
          | None => None
          end
      | None => None
      end
  | None => None
  end.

End ScanModel.

(** The program with the decoder plugged in. *)
Definition drl2svg_scan (bitSize : float) : State -> list string -> outcome State :=
  scan_lines ScanModel.Sscanf_TdCf ScanModel.Sscanf_XfYf bitSize.

Definition drl2svg_parse (bitSize : float) : list string -> outcome State :=
  parse ScanModel.Sscanf_TdCf ScanModel.Sscanf_XfYf bitSize.

Definition drl2svg (bitSize : float) (fuel : nat) (lines : list string)
  : option (outcome (list call)) :=
  main ScanModel.Sscanf_TdCf ScanModel.Sscanf_XfYf bitSize fuel lines.

(** ** The scanning loop in a build that may fuse

    Go lets a build compute [x*y + z] with one rounding, also across
    statements.  Lines 88-97 subtract [toolRadius] from, and add it to,
    the products [param1 * factor] and [param2 * factor] of lines 85-86, so
    the values [left], [right], [top] and [bottom] depend on the build.
    Here the loop is written once more, with what the build makes of these
    four values as parameters; everything else is as in [Drl.step]. *)

Module Fusing.

Section Build.

Variable Sscanf_TdCf : string -> option (Z * float).
Variable Sscanf_XfYf : string -> option (float * float).
Variable bitSize : float.

(** What the build computes for [h.Cx - toolRadius], [h.Cx + toolRadius],
    [h.Cy - toolRadius] and [h.Cy + toolRadius], from the number read, the
    unit factor and [toolRadius]. *)
Variable left_of right_of top_of bottom_of : float -> float -> float -> float.

(** One iteration of the [for sc.Scan()] loop (lines 54-107). *)
Definition step (st : State) (line : string) : outcome State :=
  if String.eqb line "METRIC" then
    Done (mkState (tools st) (holes st) (toolRadius st) (maxToolDiameter st)
            1.0%float
            (leftEdge st) (rightEdge st) (topEdge st) (bottomEdge st))
  else if String.eqb line "INCH" then
    Done (mkState (tools st) (holes st) (toolRadius st) (maxToolDiameter st)
            25.4%float
            (leftEdge st) (rightEdge st) (topEdge st) (bottomEdge st))
  else
    match Sscanf_TdCf line with
    | Some (tool, param1) =>
        if (param1 <? bitSize)%float then Fatal line
        else
          let d := (param1 * factor st)%float in
          let maxToolDiameter' :=
            if Nat.eqb (size (tools st)) 0 || (maxToolDiameter st <? d)%float
            then d else maxToolDiameter st in
          Done (mkState (<[Sprint_T tool := d]> (tools st)) (holes st)
                  (toolRadius st) maxToolDiameter' (factor st)
                  (leftEdge st) (rightEdge st) (topEdge st) (bottomEdge st))
    | None =>
        match tools st !! line with
        | Some d =>
            Done (mkState (tools st) (holes st)
                    ((d - bitSize) * 0.5)%float
                    (maxToolDiameter st) (factor st)
                    (leftEdge st) (rightEdge st) (topEdge st) (bottomEdge st))
        | None =>
            match Sscanf_XfYf line with
            | Some (param1, param2) =>
                let h := mkHole (toolRadius st)
                           (param1 * factor st)%float
                           (param2 * factor st)%float in
                let first := Nat.eqb (length (holes st)) 0 in
                let left := left_of param1 (factor st) (toolRadius st) in
                let right := right_of param1 (factor st) (toolRadius st) in
                let top := top_of param2 (factor st) (toolRadius st) in
                let bottom := bottom_of param2 (factor st) (toolRadius st) in
                Done (mkState (tools st) (holes st ++ [h])
                        (toolRadius st) (maxToolDiameter st) (factor st)
                        (if first || (left <? leftEdge st)%float
                         then left else leftEdge st)
                        (if first || (rightEdge st <? right)%float
                         then right else rightEdge st)
                        (if first || (top <? topEdge st)%float
                         then top else topEdge st)
                        (if first || (bottomEdge st <? bottom)%float
                         then bottom else bottomEdge st))
            | None => Done st
            end
        end
    end.

(** The whole scanning loop, from a given state. *)
Fixpoint scan_lines (st : State) (lines : list string) : outcome State :=
  match lines with
  | [] => Done st
  | line :: rest =>
      match step st line with
      | Done st' => scan_lines st' rest
      | Fatal l => Fatal l
      end
  end.

(** The values [left], [right], [top] and [bottom] that lines 88-97
    compute at a line that reads [x] and [y], met in the state [st]. *)
Definition at_line (st : State) (x y : float) : float * float * float * float :=
  (left_of x (factor st) (toolRadius st),
   right_of x (factor st) (toolRadius st),
   top_of y (factor st) (toolRadius st),
   bottom_of y (factor st) (toolRadius st)).

(** [c] holds the four values computed at some coordinate line of
    [lines]. *)
Definition computed (lines : list string)
    (c : float * float * float * float) : Prop :=
  exists pre line post st x y,
    lines = pre ++ line :: post /\
    scan_lines init pre = Done st /\
    Sscanf_XfYf line = Some (x, y) /\
    c = at_line st x y.

End Build.

(** A build that rounds the product before it subtracts or adds. *)
Definition rounded_sub (x f r : float) : float := (x * f - r)%float.

Definition rounded_add (x f r : float) : float := (x * f + r)%float.

(** The fused multiply-add of IEEE 754 on binary64, [x * y + z] with one
    rounding: the exact product and [z] are brought to a common exponent,
    added as integers and rounded once.  When [x] or [y] is a zero, an
    infinity or NaN, their product is exact; a zero [z] leaves the rounded
    product, an infinite or NaN [z] is the result. *)
Definition SFfma (x y z : spec_float) : spec_float :=
  match x, y, z with
  | S754_finite sx mx ex, S754_finite sy my ey, S754_finite sz mz ez =>
      let ep := (ex + ey)%Z in
      let e := Z.min ep ez in
      binary_normalize prec emax
        (cond_Zopp (xorb sx sy) (Zpos (fst (shl_align (mx * my) ep e))) +
         cond_Zopp sz (Zpos (fst (shl_align mz ez e))))%Z e false
  | S754_finite _ _ _, S754_finite _ _ _, S754_zero _ => SFmul prec emax x y
  | S754_finite _ _ _, S754_finite _ _ _, _ => z
  | _, _, _ => SFadd prec emax (SFmul prec emax x y) z
  end.

Definition fma (x y z : float) : float :=
  SF2Prim (SFfma (Prim2SF x) (Prim2SF y) (Prim2SF z)).

(** A build that fuses the product with the subtraction or addition. *)
Definition fused_sub (x f r : float) : float := fma x f (- r)%float.

Definition fused_add (x f r : float) : float := fma x f r.

End Fusing.

(** The scanning loop of the fusing build with the decoder plugged in. *)
Definition drl2svg_scan_fused (bitSize : float)
  : State -> list string -> outcome State :=
  Fusing.scan_lines ScanModel.Sscanf_TdCf ScanModel.Sscanf_XfYf bitSize
    Fusing.fused_sub Fusing.fused_add Fusing.fused_sub Fusing.fused_add.

(** ** Notions used to state the properties *)

(** The four edges kept by the scanning loop: left, right, top, bottom. *)
Definition edges (st : State) : float * float * float * float :=
  (leftEdge st, rightEdge st, topEdge st, bottomEdge st).

(** The update of lines 88-99 on a quadruple of edges; [first] is
    [len(holes) == 0]. *)
Definition add_hole (first : bool) (e : float * float * float * float)
    (h : Hole) : float * float * float * float :=
  let '(l, r, t, b) := e in
  (if first || (Cx h - Radius h <? l)%float then (Cx h - Radius h)%float else l,
   if first || (r <? Cx h + Radius h)%float then (Cx h + Radius h)%float else r,
   if first || (Cy h - Radius h <? t)%float then (Cy h - Radius h)%float else t,
   if first || (b <? Cy h + Radius h)%float then (Cy h + Radius h)%float else b).

(** The edges after the holes of a list given newest first. *)
Fixpoint extent_rev (newest_first : list Hole) : float * float * float * float :=
  match newest_first with
  | [] => (0%float, 0%float, 0%float, 0%float)
  | h :: older => add_hole (Nat.eqb (length older) 0) (extent_rev older) h
  end.

(** The edges accumulated over a list of holes in file order. *)
Definition extent_of (hs : list Hole) : float * float * float * float :=
  extent_rev (rev hs).

(** The value of [dr] after [k] rounds of [dr -= step], starting from [R]. *)
Fixpoint dr_at (step R : float) (k : nat) : float :=
  match k with
  | O => R
  | S k' => (dr_at step R k' - step)%float
  end.






(** What holds of every state the scanning loop can be in. *)
Record reachable_inv (st : State) : Prop := {
  inv_keys : forall k, is_Some (tools st !! k) -> exists n, k = Sprint_T n;
  inv_edges : edges st = extent_of (holes st);
  inv_max : tools st = ∅ -> maxToolDiameter st = 0%float
}.

(** [x] is neither an infinity nor NaN. *)
Definition finite (x : float) : bool :=
  match Prim2SF x with
  | S754_zero _ | S754_finite _ _ _ => true
  | _ => false
  end.

(** *** Binary64 values seen through their specification

    The kernel's [float] operations are specified on [spec_float] by the
    standard library: [Prim2SF (x - y) = SFsub prec emax (Prim2SF x)
    (Prim2SF y)] and so on.  The notions below are used to reason about
    the order of positive values. *)

(** A positive number or the positive infinity. *)
Definition SFpos (x : spec_float) : bool :=
  match x with
  | S754_infinity false | S754_finite false _ _ => true
  | _ => false
  end.

(** A zero, a negative number or the negative infinity. *)
Definition SFnonpos (x : spec_float) : bool :=
  match x with
  | S754_zero _ | S754_infinity true | S754_finite true _ _ => true
  | _ => false
  end.

(** The value [m * 2 ^ e] counted in units of [2 ^ -1074], the smallest
    positive binary64 number. *)
Definition sc (m : positive) (e : Z) : Z := (Zpos m * 2 ^ (e + 1074))%Z.

(** The exponent is the one binary64 gives to a mantissa of that size. *)
Definition canonical (m : positive) (e : Z) : Prop :=
  e = Z.max (Zpos (digits2_pos m) + e - 53) (-1074).

(** [mrs] is what is left of the mantissa [M] after [k] bits were shifted
    out: the quotient, and round and sticky bits that are clear when the
    shifted-out bits were all zero. *)
Definition shr_inv (M k : Z) (mrs : shr_record) : Prop :=
  (0 <= shr_m mrs)%Z /\
  exists rem, (M = shr_m mrs * 2 ^ k + rem)%Z /\ (0 <= rem < 2 ^ k)%Z /\
              (rem = 0%Z -> shr_r mrs = false /\ shr_s mrs = false).

(** The position of a positive value on the line of binary64 numbers; the
    infinity sits above every finite number. *)
Definition ord (x : spec_float) : Z :=
  match x with
  | S754_finite false m e => sc m e
  | S754_infinity false => (2 ^ 2100)%Z
  | _ => 0%Z
  end.

(** Lines that take the tool-selection branch (line 78). *)
Section Selection.

Variable Sscanf_TdCf : string -> option (Z * float).
Variable Sscanf_XfYf : string -> option (float * float).
Variable bitSize : float.

(** [line] reaches the table lookup of line 78 in state [st] and finds an
    entry. *)
Definition is_selection (st : State) (line : string) : bool :=
  negb (String.eqb line "METRIC") && negb (String.eqb line "INCH") &&
  match Sscanf_TdCf line with
  | Some _ => false
  | None => match tools st !! line with Some _ => true | None => false end
  end.

(** No line of [lines], processed from [st] on, selects a tool. *)
Fixpoint selection_free (st : State) (lines : list string) : bool :=
  match lines with
  | [] => true
  | line :: rest =>
      negb (is_selection st line) &&
      match step Sscanf_TdCf Sscanf_XfYf bitSize st line with
      | Done st' => selection_free st' rest
      | Fatal _ => true
      end
  end.

End Selection.

(** *** Notions for the further properties *)

(** A unit directive (lines 59 and 63). *)
Definition is_unit (line : string) : bool :=
  String.eqb line "METRIC" || String.eqb line "INCH".

(** The position of any number other than NaN on the line of binary64
    numbers: negative numbers mirror the positive ones, both zeros sit at
    0. *)
Definition zord (x : spec_float) : Z :=
  match x with
  | S754_finite false m e => sc m e
  | S754_finite true m e => (- sc m e)%Z
  | S754_infinity false => (2 ^ 2100)%Z
  | S754_infinity true => (- 2 ^ 2100)%Z
  | _ => 0%Z
  end.

(** Not NaN. *)
Definition SFnum (x : spec_float) : bool :=
  match x with S754_nan => false | _ => true end.

(** The left, right, top and bottom reach of a hole (lines 88-97). *)
Definition hole_left (h : Hole) : float := (Cx h - Radius h)%float.
Definition hole_right (h : Hole) : float := (Cx h + Radius h)%float.
Definition hole_top (h : Hole) : float := (Cy h - Radius h)%float.
Definition hole_bottom (h : Hole) : float := (Cy h + Radius h)%float.

(** What the scanning loop keeps apart from the four edges. *)
Definition core (st : State)
  : gmap string float * list Hole * float * float * float :=
  (tools st, holes st, toolRadius st, maxToolDiameter st, factor st).

Module Lines.

Section LineKinds.

Variable Sscanf_TdCf : string -> option (Z * float).
Variable Sscanf_XfYf : string -> option (float * float).
Variable bitSize : float.

(** A line on which line 68 calls [log.Fatalf]: it matches the tool
    pattern and the number read is below the bit diameter. *)
Definition offending (line : string) : bool :=
  match Sscanf_TdCf line with
  | Some (_, param1) => (param1 <? bitSize)%float
  | None => false
  end.

(** A line that matches the coordinate pattern. *)
Definition is_coordinate (line : string) : bool :=
  match Sscanf_XfYf line with Some _ => true | None => false end.

(** A line that is no unit directive, matches neither pattern and has not
    the form of a key of the tool table: a header, a comment, a footer. *)
Definition junk (line : string) : Prop :=
  is_unit line = false /\ Sscanf_TdCf line = None /\
  Sscanf_XfYf line = None /\ forall n, line <> Sprint_T n.

(** The entry of tool [m] after the lines [pre]: the last line of [pre]
    that defines tool [m] read the number [p], and the unit factor was [f]
    when that line was met. *)
Definition defined (pre : list string) (m : Z) (p f : float) : Prop :=
  exists pre1 def mid st1,
    pre = pre1 ++ def :: mid /\
    scan_lines Sscanf_TdCf Sscanf_XfYf bitSize init pre1 = Done st1 /\
    factor st1 = f /\
    Sscanf_TdCf def = Some (m, p) /\
    Forall (fun l => forall q, Sscanf_TdCf l <> Some (m, q)) mid.

(** The tool in force after the lines [pre]: the last line of [pre] that
    takes the selection branch of line 78 is the key of tool [m], and at
    that line the entry of tool [m] came from the number [p] and the
    factor [f]. *)
Definition selected (pre : list string) (m : Z) (p f : float) : Prop :=
  exists pre2 rest st2 st3,
    pre = pre2 ++ Sprint_T m :: rest /\
    defined pre2 m p f /\
    scan_lines Sscanf_TdCf Sscanf_XfYf bitSize init pre2 = Done st2 /\
    is_selection Sscanf_TdCf st2 (Sprint_T m) = true /\
    step Sscanf_TdCf Sscanf_XfYf bitSize st2 (Sprint_T m) = Done st3 /\
    selection_free Sscanf_TdCf Sscanf_XfYf bitSize st3 rest = true.

End LineKinds.

End Lines.

Import Lines.

(** ** Properties of the scanning loop *)

Section ScanProperties.

Variable Sscanf_TdCf : string -> option (Z * float).
Variable Sscanf_XfYf : string -> option (float * float).
Variable bitSize : float.

(** A format that starts with a literal letter only matches input that
    starts with that letter. *)
Hypothesis Sscanf_TdCf_T :
  forall line r, Sscanf_TdCf line = Some r -> exists rest, line = String "T" rest.
Hypothesis Sscanf_XfYf_X :
  forall line r, Sscanf_XfYf line = Some r -> exists rest, line = String "X" rest.

Local Abbreviation step := (step Sscanf_TdCf Sscanf_XfYf bitSize).
Local Abbreviation scan_lines := (scan_lines Sscanf_TdCf Sscanf_XfYf bitSize).
Local Abbreviation parse := (parse Sscanf_TdCf Sscanf_XfYf bitSize).

Lemma extent_of_snoc hs h :
  extent_of (hs ++ [h]) = add_hole (Nat.eqb (length hs) 0) (extent_of hs) h.
Proof.
  unfold extent_of. rewrite rev_app_distr. simpl.
  now rewrite length_rev.
Qed.

Lemma init_inv : reachable_inv init.
Proof.
  split; simpl; try reflexivity.
  intros k [x Hx]. rewrite lookup_empty in Hx. discriminate.
Qed.

Lemma step_inv st line st' :
  reachable_inv st -> step st line = Done st' -> reachable_inv st'.
Proof.
  intros [Hk He Hm]. unfold Drl.step.
  destruct (String.eqb line "METRIC").
  { intros [= <-]. split; assumption. }
  destruct (String.eqb line "INCH").
  { intros [= <-]. split; assumption. }
  destruct (Sscanf_TdCf line) as [[tool param1]|].
  { destruct (param1 <? bitSize)%float; [discriminate|].
    intros [= <-]. split; simpl.
    - intros k Hsome.
      destruct (decide (Sprint_T tool = k)) as [<-|Hne]; [now exists tool|].
      rewrite lookup_insert_ne in Hsome by assumption. now apply Hk.
    - assumption.
    - intros Hempty. exfalso. exact (insert_non_empty _ _ _ Hempty). }
  destruct (tools st !! line).
  { intros [= <-]. split; assumption. }
  destruct (Sscanf_XfYf line) as [[param1 param2]|].
  - intros [= <-]. split; simpl; try assumption.
    rewrite extent_of_snoc, <- He. reflexivity.
  - intros [= <-]. split; assumption.
Qed.

Lemma scan_lines_inv lines : forall st st',
  reachable_inv st -> scan_lines st lines = Done st' -> reachable_inv st'.
Proof.
  induction lines as [|line rest IH]; simpl; intros st st' Hinv.
  - now intros [= <-].
  - destruct (step st line) as [st1|] eqn:Hs; [|discriminate].
    apply IH. eapply step_inv; eassumption.
Qed.

(** The test of line 68 looks at the number read from the line, not at the
    scaled diameter: whether a tool definition is fatal does not depend on
    [factor]. *)
Lemma tool_definition_fatal_iff st line tool p :
  Sscanf_TdCf line = Some (tool, p) ->
  step st line = Fatal line <-> (p <? bitSize)%float = true.
Proof.
  intros HT. destruct (Sscanf_TdCf_T _ _ HT) as [rest ->].
  unfold Drl.step. simpl String.eqb. rewrite HT.
  destruct (p <? bitSize)%float; split; intros H; try reflexivity; discriminate.
Qed.

Lemma parse_Done lines st :
  parse lines = Done st ->
  exists st0, scan_lines init lines = Done st0 /\ st = expand st0 /\
              reachable_inv st0.
Proof.
  unfold Drl.parse.
  destruct (scan_lines init lines) as [st0|] eqn:Hs; [|discriminate].
  intros [= <-]. exists st0. repeat split; trivial.
  all: eapply scan_lines_inv; [apply init_inv | exact Hs].
Qed.

(** C4.  When the input leaves exactly one hole, at (10,10) with cut radius
    1, and the largest tool diameter seen is 3, the edges at the end of the
    scanning loop are left 9, right 11, top 9, bottom 11, and the edges after
    the margin of [maxToolDiameter] are left 6, right 14, top 6, bottom 14. *)
Theorem C4_single_hole_extent lines st :
  parse lines = Done st ->
  holes st = [mkHole 1 10 10] ->
  maxToolDiameter st = 3%float ->
  exists st0,
    scan_lines init lines = Done st0 /\ st = expand st0 /\
    edges st0 = (9, 11, 9, 11)%float /\
    edges st = (6, 14, 6, 14)%float.
Proof.
  intros Hp Hh Hm.
  destruct (parse_Done _ _ Hp) as (st0 & Hs & -> & [_ He _]).
  simpl in Hh, Hm. rewrite Hh in He.
  exists st0. split; [exact Hs|]. split; [reflexivity|]. split; [exact He|].
  unfold edges in *. simpl. rewrite Hm.
  injection He as -> -> -> ->. reflexivity.
Qed.

(** C6 (as amended).  When the input leaves no hole, the edges at the end of
    the scanning loop are still the zero values they started with; the edges
    handed to the output are these zeros moved outward by [maxToolDiameter],
    and they are all zero again when no tool definition was accepted. *)
Theorem C6_no_holes_extent lines st :
  parse lines = Done st ->
  holes st = [] ->
  exists st0,
    scan_lines init lines = Done st0 /\ st = expand st0 /\
    edges st0 = (0, 0, 0, 0)%float /\
    edges st = (0 - maxToolDiameter st, 0 + maxToolDiameter st,
                0 - maxToolDiameter st, 0 + maxToolDiameter st)%float /\
    (tools st = ∅ -> edges st = (0, 0, 0, 0)%float).
Proof.
  intros Hp Hh.
  destruct (parse_Done _ _ Hp) as (st0 & Hs & -> & [_ He Hmax]).
  simpl in Hh. rewrite Hh in He.
  exists st0. split; [exact Hs|]. split; [reflexivity|]. split; [exact He|].
  unfold edges in *. simpl. injection He as -> -> -> ->.
  split; [reflexivity|].
  intros Hempty. now rewrite (Hmax Hempty).
Qed.

Lemma step_no_selection st line st' :
  is_selection Sscanf_TdCf st line = false ->
  step st line = Done st' -> toolRadius st' = toolRadius st.
Proof.
  unfold is_selection, Drl.step.
  destruct (String.eqb line "METRIC"); [now intros _ [= <-]|].
  destruct (String.eqb line "INCH"); [now intros _ [= <-]|].
  destruct (Sscanf_TdCf line) as [[tool param1]|].
  { destruct (param1 <? bitSize)%float; [discriminate|]. now intros _ [= <-]. }
  destruct (tools st !! line); [discriminate|].
  destruct (Sscanf_XfYf line) as [[param1 param2]|]; now intros _ [= <-].
Qed.

Lemma scan_lines_no_selection lines : forall st st',
  selection_free Sscanf_TdCf Sscanf_XfYf bitSize st lines = true ->
  scan_lines st lines = Done st' -> toolRadius st' = toolRadius st.
Proof.
  induction lines as [|line rest IH]; simpl; intros st st'.
  - now intros _ [= <-].
  - destruct (step st line) as [st1|] eqn:Hs; [|discriminate].
    intros [Hsel Hrest]%andb_prop Hscan.
    apply negb_true_iff in Hsel.
    rewrite (IH _ _ Hrest Hscan). eapply step_no_selection; eassumption.
Qed.

Lemma key_starts_with_T st line :
  reachable_inv st -> is_Some (tools st !! line) ->
  exists rest, line = String "T" rest.
Proof.
  intros [Hk _ _] Hsome. destruct (Hk _ Hsome) as [n ->].
  now exists (pretty n).
Qed.

(** A line accepted by the coordinate pattern reaches the coordinate branch
    whatever the state: it is no unit directive, no tool definition and no
    key of the table. *)
Lemma step_coordinate st line x y :
  reachable_inv st -> Sscanf_XfYf line = Some (x, y) ->
  step st line =
  Done (mkState (tools st)
          (holes st ++ [mkHole (toolRadius st) (x * factor st) (y * factor st)])
          (toolRadius st) (maxToolDiameter st) (factor st)
          (fst (fst (fst (add_hole (Nat.eqb (length (holes st)) 0) (edges st)
             (mkHole (toolRadius st) (x * factor st) (y * factor st))))))
          (snd (fst (fst (add_hole (Nat.eqb (length (holes st)) 0) (edges st)
             (mkHole (toolRadius st) (x * factor st) (y * factor st))))))
          (snd (fst (add_hole (Nat.eqb (length (holes st)) 0) (edges st)
             (mkHole (toolRadius st) (x * factor st) (y * factor st)))))
          (snd (add_hole (Nat.eqb (length (holes st)) 0) (edges st)
             (mkHole (toolRadius st) (x * factor st) (y * factor st))))).
Proof.
  intros Hinv Hxy. destruct (Sscanf_XfYf_X _ _ Hxy) as [rest ->].
  unfold Drl.step. simpl String.eqb.
  destruct (Sscanf_TdCf (String "X" rest)) as [r|] eqn:HT.
  { destruct (Sscanf_TdCf_T _ _ HT) as [rest' [=]]. }
  destruct (tools st !! String "X" rest) as [d|] eqn:Hl.
  { destruct (key_starts_with_T st (String "X" rest) Hinv) as [rest' [=]].
    now exists d. }
  rewrite Hxy. reflexivity.
Qed.

(** C7.  A coordinate line met before any line has selected a tool does not
    end the run: it appends a hole whose radius is the zero value
    [toolRadius] started with. *)
Theorem C7_coordinate_before_selection pre st line x y :
  scan_lines init pre = Done st ->
  selection_free Sscanf_TdCf Sscanf_XfYf bitSize init pre = true ->
  Sscanf_XfYf line = Some (x, y) ->
  exists st',
    step st line = Done st' /\
    holes st' = holes st ++ [mkHole 0 (x * factor st) (y * factor st)].
Proof.
  intros Hs Hfree Hxy.
  assert (Hinv : reachable_inv st)
    by (eapply scan_lines_inv; [apply init_inv | exact Hs]).
  pose proof (scan_lines_no_selection _ _ _ Hfree Hs) as Hr. simpl in Hr.
  rewrite (step_coordinate _ _ _ _ Hinv Hxy).
  eexists. split; [reflexivity|]. simpl. now rewrite Hr.
Qed.

Lemma pretty_N_go_length x : forall s,
  (String.length s <= String.length (pretty_N_go x s))%nat.
Proof.
  induction (N.lt_wf_0 x) as [x _ IH]; intros s.
  destruct (N.eq_dec x 0%N) as [->|Hx]; [now rewrite pretty_N_go_0|].
  rewrite pretty_N_go_step by lia.
  etransitivity; [|apply IH, N.div_lt; lia]. simpl. lia.
Qed.

(** The decimal rendering of an integer is never ["01"]. *)
Lemma Sprint_T_not_T01 n : Sprint_T n <> "T01".
Proof.
  unfold Sprint_T. simpl. intros [= H]. revert H.
  assert (Hpos : forall p : positive, pretty (Npos p) <> "01").
  { intros p. unfold pretty, pretty_N.
    destruct (decide (N.pos p = 0%N)) as [|_]; [discriminate|].
    rewrite pretty_N_go_step by lia.
    destruct (N.eq_dec (N.pos p `div` 10)%N 0%N) as [->|Hy].
    { rewrite pretty_N_go_0. discriminate. }
    rewrite pretty_N_go_step by now apply N.neq_0_lt_0.
    destruct (N.eq_dec ((N.pos p `div` 10) `div` 10)%N 0%N) as [Hz|Hz].
    - rewrite Hz, pretty_N_go_0. intros [= Hc _].
      apply (pretty_N_char_inj _ 0%N) in Hc; [|now apply N.mod_lt|reflexivity].
      apply Hy. rewrite (N.div_mod (N.pos p `div` 10)%N 10%N) by discriminate.
      now rewrite Hz, Hc.
    - rewrite pretty_N_go_step by now apply N.neq_0_lt_0. intros H.
      match type of H with pretty_N_go ?x ?s = _ =>
        pose proof (pretty_N_go_length x s) as Hlen end.
      rewrite H in Hlen. simpl in Hlen. lia. }
  destruct n as [|p|p]; unfold pretty, pretty_Z.
  - discriminate.
  - apply Hpos.
  - discriminate.
Qed.

(** C9.  An accepted tool definition is stored under ["T"] followed by the
    decimal rendering of the integer that was read, whatever the spelling on
    the line.  All keys of the table have that form, so ["T01"] is never one
    of them; a later line that is not in the table and matches neither
    pattern leaves the whole state, selected radius included, as it was;
    the line made of the stored key selects the tool. *)
Theorem C9_normalised_tool_key pre st line tool p :
  scan_lines init pre = Done st ->
  Sscanf_TdCf line = Some (tool, p) ->
  (p <? bitSize)%float = false ->
  exists st1,
    step st line = Done st1 /\
    tools st1 !! Sprint_T tool = Some (p * factor st)%float /\
    toolRadius st1 = toolRadius st /\
    (forall k, is_Some (tools st1 !! k) -> exists n, k = Sprint_T n) /\
    tools st1 !! "T01" = None /\
    (forall sel, sel <> "METRIC" -> sel <> "INCH" ->
       tools st1 !! sel = None ->
       Sscanf_TdCf sel = None -> Sscanf_XfYf sel = None ->
       step st1 sel = Done st1) /\
    (Sscanf_TdCf (Sprint_T tool) = None ->
       exists st2, step st1 (Sprint_T tool) = Done st2 /\
                   toolRadius st2 = ((p * factor st - bitSize) * 0.5)%float).
Proof.
  intros Hs HT Hbit.
  assert (Hinv : reachable_inv st)
    by (eapply scan_lines_inv; [apply init_inv | exact Hs]).
  destruct (Sscanf_TdCf_T _ _ HT) as [rest ->].
  assert (Hstep : exists st1, step st (String "T" rest) = Done st1 /\
            tools st1 = <[Sprint_T tool := (p * factor st)%float]> (tools st) /\
            toolRadius st1 = toolRadius st).
  { unfold Drl.step. simpl String.eqb. rewrite HT, Hbit.
    eexists. split; [reflexivity|]. split; reflexivity. }
  destruct Hstep as (st1 & Hstep & Htools & Hrad).
  assert (Hinv1 : reachable_inv st1) by (eapply step_inv; eassumption).
  exists st1. split; [exact Hstep|].
  split; [rewrite Htools; apply lookup_insert_eq|].
  split; [exact Hrad|].
  split; [apply Hinv1|].
  split.
  { destruct (tools st1 !! "T01") as [d|] eqn:Hl; [|reflexivity].
    destruct (inv_keys _ Hinv1 "T01") as [n Hn]; [now exists d|].
    symmetry in Hn. now apply Sprint_T_not_T01 in Hn. }
  split.
  - intros sel HM HI Hl HnT HnX. unfold Drl.step.
    apply String.eqb_neq in HM, HI. rewrite HM, HI, HnT, Hl, HnX. reflexivity.
  - intros HnT. unfold Drl.step. simpl String.eqb.
    rewrite HnT, Htools, lookup_insert_eq.
    eexists. split; reflexivity.
Qed.

End ScanProperties.


(** ** Facts about binary64 arithmetic *)

Section Binary64.

Local Open Scope Z_scope.

(** *** Size of a mantissa and canonical exponents *)

(** The exponent binary64 gives to a number whose leading bit has weight
    [2 ^ (e - 1)]. *)
Lemma fexp_eq e : fexp prec emax e = Z.max (e - 53) (-1074).
Proof. reflexivity. Qed.

Lemma digits2_size m : digits2_pos m = Pos.size m.
Proof. induction m; simpl; congruence. Qed.

(** [digits2_pos m] is the number of bits of [m]. *)
Lemma digits2_bounds m :
  2 ^ (Zpos (digits2_pos m) - 1) <= Zpos m < 2 ^ Zpos (digits2_pos m).
Proof.
  rewrite digits2_size. split.
  - pose proof (Pos.size_le m) as H.
    apply Pos2Z.pos_le_pos in H. rewrite Pos2Z.inj_pow in H.
    replace (Zpos (Pos.size m)) with (Z.succ (Zpos (Pos.size m) - 1)) in H by lia.
    rewrite Z.pow_succ_r in H by lia.
    change (Zpos m~0) with (2 * Zpos m) in H. lia.
  - pose proof (Pos.size_gt m) as H.
    apply Pos2Z.pos_lt_pos in H. now rewrite Pos2Z.inj_pow in H.
Qed.

Lemma digits2_unique m d :
  2 ^ (d - 1) <= Zpos m < 2 ^ d -> Zpos (digits2_pos m) = d.
Proof.
  intros [Hlo Hhi]. pose proof (digits2_bounds m) as [Lo Hi].
  assert (0 < d).
  { destruct (Z.lt_ge_cases 0 d) as [|Hd]; [assumption|].
    assert (2 ^ d <= 2 ^ 0) by (apply Z.pow_le_mono_r; lia). simpl in *. lia. }
  assert (Zpos (digits2_pos m) - 1 < d).
  { apply (Z.pow_lt_mono_r_iff 2); lia. }
  assert (d - 1 < Zpos (digits2_pos m)).
  { apply (Z.pow_lt_mono_r_iff 2); lia. }
  lia.
Qed.

(** A valid finite number has a canonical exponent, at most 971. *)
Lemma valid_canonical m e :
  valid_binary (S754_finite false m e) = true ->
  canonical m e /\ e <= 971.
Proof.
  unfold SpecFloat.valid_binary, bounded, canonical_mantissa. rewrite fexp_eq.
  intros [H1 H2]%andb_prop. apply Z.eqb_eq in H1. apply Z.leb_le in H2.
  unfold canonical. change (emax - prec) with 971 in H2. lia.
Qed.

Lemma sc_pos m e : -1074 <= e -> 0 < sc m e.
Proof.
  intros He. unfold sc. apply Z.mul_pos_pos; [lia|]. apply Z.pow_pos_nonneg; lia.
Qed.

(** *** Order of canonical numbers *)

(** Between canonical numbers, the smaller exponent gives the smaller
    value. *)
Lemma canonical_exp_lt m1 e1 m2 e2 :
  canonical m1 e1 -> canonical m2 e2 -> e1 < e2 -> sc m1 e1 < sc m2 e2.
Proof.
  unfold canonical, sc. intros C1 C2 Hlt.
  pose proof (digits2_bounds m1) as [_ Hi1].
  pose proof (digits2_bounds m2) as [Lo2 _].
  assert (Hd1 : Zpos (digits2_pos m1) <= 53) by lia.
  assert (Hd2 : Zpos (digits2_pos m2) = 53) by lia.
  rewrite Hd2 in Lo2.
  assert (Zpos m1 < 2 ^ 53).
  { eapply Z.lt_le_trans; [exact Hi1|]. apply Z.pow_le_mono_r; lia. }
  assert (He1 : -1074 <= e1) by lia.
  apply Z.lt_le_trans with (2 ^ 53 * 2 ^ (e1 + 1074)).
  { apply Z.mul_lt_mono_pos_r; [apply Z.pow_pos_nonneg; lia|assumption]. }
  apply Z.le_trans with (2 ^ 52 * 2 ^ (e2 + 1074)).
  { rewrite <- !Z.pow_add_r by lia. apply Z.pow_le_mono_r; lia. }
  apply Z.mul_le_mono_nonneg_r; [apply Z.pow_nonneg; lia|assumption].
Qed.

(** On canonical positive numbers the comparison of the specification is
    the comparison of the values. *)
Lemma SFcompare_canonical m1 e1 m2 e2 :
  canonical m1 e1 -> canonical m2 e2 ->
  SFcompare (S754_finite false m1 e1) (S754_finite false m2 e2) =
  Some (sc m1 e1 ?= sc m2 e2).
Proof.
  intros C1 C2. simpl. f_equal.
  destruct (Z.compare_spec e1 e2) as [->|Hlt|Hgt].
  - unfold sc. fold (Pos.compare m1 m2).
    change ((m1 ?= m2)%positive) with (Zpos m1 ?= Zpos m2).
    assert (0 < 2 ^ (e2 + 1074)) by (apply Z.pow_pos_nonneg; unfold canonical in *; lia).
    destruct (Z.compare_spec (Zpos m1) (Zpos m2)) as [E|L|G]; symmetry.
    + apply Z.compare_eq_iff. now rewrite E.
    + apply Z.compare_lt_iff. now apply Z.mul_lt_mono_pos_r.
    + apply Z.compare_gt_iff. now apply Z.mul_lt_mono_pos_r.
  - symmetry. apply Z.compare_lt_iff. now apply canonical_exp_lt.
  - symmetry. apply Z.compare_gt_iff. now apply canonical_exp_lt.
Qed.

(** *** Shifting bits out of a mantissa *)
Lemma shr_1_inv M k mrs :
  0 <= k -> shr_inv M k mrs -> shr_inv M (k + 1) (shr_1 mrs).
Proof.
  intros Hk [Hm (rem & HM & Hrem & Hex)].
  destruct mrs as [m r s]. cbn [shr_m shr_r shr_s] in *.
  assert (Hp : 2 ^ (k + 1) = 2 * 2 ^ k) by (rewrite Z.pow_add_r by lia; lia).
  assert (0 < 2 ^ k) by (apply Z.pow_pos_nonneg; lia).
  unfold shr_inv.
  destruct m as [|[p|p|]|p]; cbn [shr_1 shr_m shr_r shr_s]; try lia.
  - split; [lia|]. exists rem. rewrite Hp.
    split; [lia|]. split; [lia|].
    intros E; destruct (Hex E) as [-> ->]; split; reflexivity.
  - split; [lia|]. exists (2 ^ k + rem). rewrite Hp.
    split; [lia|]. split; [lia|]. intros E; lia.
  - split; [lia|]. exists rem. rewrite Hp.
    split; [lia|]. split; [lia|].
    intros E; destruct (Hex E) as [-> ->]; split; reflexivity.
  - split; [lia|]. exists (2 ^ k + rem). rewrite Hp.
    split; [lia|]. split; [lia|]. intros E; lia.
Qed.

Lemma iter_pos_shr_inv M p : forall k mrs,
  0 <= k -> shr_inv M k mrs -> shr_inv M (k + Zpos p) (SpecFloat.iter_pos shr_1 p mrs).
Proof.
  induction p as [p IH|p IH|]; intros k mrs Hk Hinv; simpl.
  - replace (k + Zpos p~1) with (((k + 1) + Zpos p) + Zpos p) by lia.
    apply IH; [lia|]. apply IH; [lia|]. now apply shr_1_inv.
  - replace (k + Zpos p~0) with ((k + Zpos p) + Zpos p) by lia.
    apply IH; [lia|]. now apply IH.
  - now apply shr_1_inv.
Qed.

Lemma shr_inv_init m : 0 <= m -> shr_inv m 0 (Build_shr_record m false false).
Proof.
  intros Hm. split; [exact Hm|]. exists 0. simpl. repeat split; lia.
Qed.

(** Rounding to nearest keeps the quotient or adds one to it, and keeps it
    when nothing was shifted out. *)
Lemma round_nearest_even_range q mrs :
  shr_m mrs = q ->
  let m1 := round_nearest_even q (loc_of_shr_record mrs) in
  (m1 = q \/ m1 = q + 1) /\
  (shr_r mrs = false -> shr_s mrs = false -> m1 = q).
Proof.
  destruct mrs as [m r s]. simpl. intros ->.
  destruct r, s; simpl; try destruct (Z.even q); (split; [auto|]); intros; try discriminate; reflexivity.
Qed.

Lemma iter_xO m p : Zpos (Pos.iter xO m p) = Zpos m * 2 ^ Zpos p.
Proof.
  induction p as [|p IH] using Pos.peano_ind.
  - simpl. lia.
  - rewrite Pos.iter_succ, Pos2Z.inj_succ, Z.pow_succ_r by lia.
    change (Zpos (Pos.iter xO m p)~0) with (2 * Zpos (Pos.iter xO m p)). lia.
Qed.

Lemma sc_exp m e j : 0 <= j -> -1074 <= e -> sc m (e + j) = sc m e * 2 ^ j.
Proof.
  intros. unfold sc. replace (e + j + 1074) with ((e + 1074) + j) by lia.
  rewrite Z.pow_add_r by lia. lia.
Qed.

(** A canonical number above [m * 2 ^ e] has an exponent at least the one
    [m * 2 ^ e] is rounded at. *)
Lemma canonical_upper_grid m e ma ea :
  -1074 <= e -> canonical ma ea -> sc m e <= sc ma ea ->
  Z.max (Zpos (digits2_pos m) + e - 53) (-1074) <= ea.
Proof.
  intros He Ca Hle.
  destruct (Z.le_gt_cases (Z.max (Zpos (digits2_pos m) + e - 53) (-1074)) ea) as [|Hlt];
    [assumption|exfalso].
  unfold canonical in Ca.
  pose proof (digits2_bounds m) as [Lo _].
  pose proof (digits2_bounds ma) as [_ Hi].
  assert (Hda : Zpos (digits2_pos ma) <= 53) by lia.
  assert (Hfe : ea < Zpos (digits2_pos m) + e - 53) by lia.
  assert (Hea : -1074 <= ea) by lia.
  unfold sc in Hle.
  assert (Zpos ma * 2 ^ (ea + 1074) < 2 ^ (53 + ea + 1074)).
  { replace (53 + ea + 1074) with (53 + (ea + 1074)) by lia.
    rewrite (Z.pow_add_r 2 53 (ea + 1074)) by lia.
    apply Z.mul_lt_mono_pos_r; [apply Z.pow_pos_nonneg; lia|].
    eapply Z.lt_le_trans; [exact Hi|]. apply Z.pow_le_mono_r; lia. }
  assert (2 ^ (Zpos (digits2_pos m) - 1 + (e + 1074)) <= Zpos m * 2 ^ (e + 1074)).
  { rewrite (Z.pow_add_r 2 (Zpos (digits2_pos m) - 1) (e + 1074)) by lia.
    apply Z.mul_le_mono_nonneg_r; [apply Z.pow_nonneg; lia|assumption]. }
  assert (2 ^ (53 + ea + 1074) <= 2 ^ (Zpos (digits2_pos m) - 1 + (e + 1074))).
  { apply Z.pow_le_mono_r; lia. }
  lia.
Qed.

(** *** Rounding a positive value *)
Lemma shr_fexp_id p e :
  Z.max (Zpos (digits2_pos p) + e - 53) (-1074) - e <= 0 ->
  shr_fexp prec emax (Zpos p) e loc_Exact = (Build_shr_record (Zpos p) false false, e).
Proof.
  intros H. unfold shr_fexp. rewrite fexp_eq. cbn [Zdigits2 shr_record_of_loc].
  unfold shr.
  destruct (Z.max (Zpos (digits2_pos p) + e - 53) (-1074) - e); try reflexivity.
  lia.
Qed.

Lemma shr_fexp_shift p e k :
  Z.max (Zpos (digits2_pos p) + e - 53) (-1074) - e = Zpos k ->
  shr_fexp prec emax (Zpos p) e loc_Exact =
  (SpecFloat.iter_pos shr_1 k (Build_shr_record (Zpos p) false false), e + Zpos k).
Proof.
  intros H. unfold shr_fexp. rewrite fexp_eq. cbn [Zdigits2 shr_record_of_loc].
  unfold shr. now rewrite H.
Qed.

(** Rounding [mz * 2 ^ ez] gives a canonical number, or the infinity when
    its exponent exceeds 971; the result is below every canonical number
    that is above the exact value. *)
Lemma binary_round_aux_pos mz ez :
  -1074 <= ez -> ez <= Z.max (Zpos (digits2_pos mz) + ez - 53) (-1074) ->
  exists m' e', canonical m' e' /\
    binary_round_aux prec emax false (Zpos mz) ez loc_Exact =
      (if e' <=? 971 then S754_finite false m' e' else S754_infinity false) /\
    (forall ma ea, canonical ma ea -> sc mz ez <= sc ma ea -> sc m' e' <= sc ma ea).
Proof.
  intros Hez Hfe. unfold binary_round_aux.
  destruct (Z.max (Zpos (digits2_pos mz) + ez - 53) (-1074) - ez) as [|k|k] eqn:Hk;
    [| |lia].
  - (* no bit is dropped *)
    rewrite shr_fexp_id by lia. cbv beta iota. cbn [shr_m loc_of_shr_record round_nearest_even].
    rewrite shr_fexp_id by lia. cbv beta iota. cbn [shr_m].
    exists mz, ez. split; [unfold canonical; lia|]. split; [reflexivity|]. auto.
  - (* [k] bits are dropped *)
    rewrite (shr_fexp_shift _ _ _ Hk). cbv beta iota.
    pose proof (iter_pos_shr_inv (Zpos mz) k 0 _ ltac:(lia) (shr_inv_init (Zpos mz) ltac:(lia)))
      as [Hq (rem & HM & Hrem & Hex)].
    rewrite Z.add_0_l in *.
    set (mrs := SpecFloat.iter_pos shr_1 k (Build_shr_record (Zpos mz) false false)) in *.
    set (q := shr_m mrs) in *.
    pose proof (digits2_bounds mz) as [Lo Hi].
    assert (Hd : Zpos (digits2_pos mz) = Zpos k + 53) by lia.
    rewrite Hd in Lo, Hi.
    assert (Hpk : 0 < 2 ^ Zpos k) by (apply Z.pow_pos_nonneg; lia).
    assert (Hq53 : q < 2 ^ 53).
    { apply (Z.mul_lt_mono_pos_r (2 ^ Zpos k)); [assumption|].
      rewrite <- Z.pow_add_r by lia. replace (53 + Zpos k) with (Zpos k + 53) by lia. lia. }
    assert (Hq52 : 2 ^ 52 <= q).
    { apply Z.lt_succ_r. apply (Z.mul_lt_mono_pos_r (2 ^ Zpos k)); [assumption|].
      rewrite <- Z.pow_add_r by lia.
      replace (52 + Zpos k) with (Zpos k + 53 - 1) by lia. lia. }
    destruct (round_nearest_even_range q mrs eq_refl) as [Hm1 Hexact].
    set (m1 := round_nearest_even q (loc_of_shr_record mrs)) in *.
    assert (Hup : forall ma ea, canonical ma ea -> sc mz ez <= sc ma ea ->
                    m1 * 2 ^ (ez + Zpos k + 1074) <= sc ma ea).
    { intros ma ea Ca Hle.
      pose proof (canonical_upper_grid _ _ _ _ Hez Ca Hle) as Hgrid.
      assert (Hfea : ez + Zpos k <= ea) by lia.
      replace ea with ((ez + Zpos k) + (ea - (ez + Zpos k))) by lia.
      rewrite sc_exp by lia.
      unfold sc in *.
      set (P := 2 ^ (ez + Zpos k + 1074)).
      set (A := 2 ^ (ea - (ez + Zpos k))).
      assert (HP : P = 2 ^ Zpos k * 2 ^ (ez + 1074)).
      { unfold P. rewrite <- Z.pow_add_r by lia. f_equal. lia. }
      assert (HPpos : 0 < P) by (apply Z.pow_pos_nonneg; lia).
      assert (Hez' : 0 < 2 ^ (ez + 1074)) by (apply Z.pow_pos_nonneg; lia).
      replace (Zpos ma * P * A) with ((Zpos ma * A) * P) by lia.
      apply Z.mul_le_mono_nonneg_r; [lia|].
      (* value of the bound on the grid *)
      replace (ea + 1074) with ((ez + Zpos k + 1074) + (ea - (ez + Zpos k))) in Hle by lia.
      rewrite (Z.pow_add_r 2 (ez + Zpos k + 1074) (ea - (ez + Zpos k))) in Hle by lia.
      fold P A in Hle.
      assert (Hval : Zpos mz * 2 ^ (ez + 1074) = q * P + rem * 2 ^ (ez + 1074)).
      { rewrite HM, HP. lia. }
      rewrite Hval in Hle.
      assert (Hrem' : 0 <= rem * 2 ^ (ez + 1074) < P).
      { split; [apply Z.mul_nonneg_nonneg; lia|].
        rewrite HP. apply Z.mul_lt_mono_pos_r; lia. }
      assert (HqA : q <= Zpos ma * A).
      { apply (Z.mul_le_mono_pos_r _ _ P); [assumption|]. lia. }
      destruct (Z.eq_dec rem 0) as [Hr0|Hr0].
      - destruct (Hex Hr0) as [Hr Hs]. rewrite (Hexact Hr Hs). exact HqA.
      - assert (q < Zpos ma * A).
        { apply (Z.mul_lt_mono_pos_r P); [assumption|].
          assert (0 < rem * 2 ^ (ez + 1074)) by (apply Z.mul_pos_pos; lia).
          lia. }
        lia. }
    destruct (Z.eq_dec m1 (2 ^ 53)) as [E53|N53].
    + (* the rounded mantissa overflows to the next binade *)
      rewrite E53. change (2 ^ 53) with (Zpos 9007199254740992).
      rewrite (shr_fexp_shift _ _ 1%positive)
        by (change (Zpos (digits2_pos 9007199254740992)) with 54; lia).
      cbv beta iota.
      change (shr_m (SpecFloat.iter_pos shr_1 1 (Build_shr_record (Zpos 9007199254740992) false false)))
        with (Zpos 4503599627370496).
      cbv beta iota.
      exists 4503599627370496%positive, (ez + Zpos k + 1).
      split; [unfold canonical; change (Zpos (digits2_pos 4503599627370496)) with 53; lia|].
      split; [reflexivity|].
      intros ma ea Ca Hle. specialize (Hup ma ea Ca Hle).
      rewrite E53 in Hup. unfold sc.
      replace (ez + Zpos k + 1 + 1074) with (1 + (ez + Zpos k + 1074)) by lia.
      rewrite (Z.pow_add_r 2 1 (ez + Zpos k + 1074)) by lia.
      change (2 ^ 53) with (4503599627370496 * 2) in Hup.
      change (2 ^ 1) with 2. unfold sc in Hup. lia.
    + assert (Hm1r : 2 ^ 52 <= m1 < 2 ^ 53) by lia.
      destruct m1 as [|pm|pm] eqn:Em1; [lia| |lia].
      assert (Hdm : Zpos (digits2_pos pm) = 53) by (apply digits2_unique; exact Hm1r).
      rewrite shr_fexp_id by lia. cbv beta iota. cbn [shr_m].
      exists pm, (ez + Zpos k).
      split; [unfold canonical; lia|]. split; [reflexivity|].
      intros ma ea Ca Hle. exact (Hup ma ea Ca Hle).
Qed.

Lemma digits2_shift m j :
  Zpos (digits2_pos (Pos.iter xO m j)) = Zpos (digits2_pos m) + Zpos j.
Proof.
  apply digits2_unique. rewrite iter_xO.
  pose proof (digits2_bounds m) as [Lo Hi].
  assert (0 < 2 ^ Zpos j) by (apply Z.pow_pos_nonneg; lia).
  assert (0 < Zpos (digits2_pos m)) by lia.
  replace (Zpos (digits2_pos m) + Zpos j - 1)
    with ((Zpos (digits2_pos m) - 1) + Zpos j) by lia.
  rewrite !Z.pow_add_r by lia. split.
  - apply Z.mul_le_mono_nonneg_r; lia.
  - apply Z.mul_lt_mono_pos_r; lia.
Qed.

(** The same for [binary_round], which first aligns the mantissa. *)
Lemma binary_round_pos m e :
  -1074 <= e ->
  exists m' e', canonical m' e' /\
    binary_round prec emax false m e =
      (if e' <=? 971 then S754_finite false m' e' else S754_infinity false) /\
    (forall ma ea, canonical ma ea -> sc m e <= sc ma ea -> sc m' e' <= sc ma ea).
Proof.
  intros He. unfold binary_round, shl_align. rewrite fexp_eq.
  destruct (Z.max (Zpos (digits2_pos m) + e - 53) (-1074) - e) as [|j|j] eqn:Hj.
  - apply binary_round_aux_pos; lia.
  - apply binary_round_aux_pos; lia.
  - destruct (binary_round_aux_pos (Pos.iter xO m j)
                (Z.max (Zpos (digits2_pos m) + e - 53) (-1074)))
      as (m' & e' & Hc & Hr & Hup).
    + lia.
    + rewrite digits2_shift. lia.
    + exists m', e'. split; [exact Hc|]. split; [exact Hr|].
      intros ma ea Ca Hle. apply Hup; [exact Ca|].
      replace (sc (Pos.iter xO m j) (Z.max (Zpos (digits2_pos m) + e - 53) (-1074)))
        with (sc m e); [exact Hle|].
      unfold sc. rewrite iter_xO.
      replace (e + 1074) with (Zpos j + (Z.max (Zpos (digits2_pos m) + e - 53) (-1074) + 1074)) by lia.
      rewrite Z.pow_add_r by lia. lia.
Qed.

Lemma shl_align_fst m e e' :
  e' <= e -> Zpos (fst (shl_align m e e')) = Zpos m * 2 ^ (e - e').
Proof.
  intros Hle. unfold shl_align.
  destruct (e' - e) as [|j|j] eqn:Hj; cbn [fst].
  - replace (e - e') with 0 by lia. rewrite Z.pow_0_r. lia.
  - lia.
  - rewrite iter_xO. f_equal. f_equal. lia.
Qed.

Lemma sc_bound m e : canonical m e -> e <= 971 -> 0 < sc m e < 2 ^ 2100.
Proof.
  intros C He. unfold canonical in C.
  pose proof (digits2_bounds m) as [_ Hi].
  assert (-1074 <= e) by lia.
  split; [now apply sc_pos|]. unfold sc.
  apply Z.lt_le_trans with (2 ^ 53 * 2 ^ (e + 1074)).
  - apply Z.mul_lt_mono_pos_r; [apply Z.pow_pos_nonneg; lia|].
    eapply Z.lt_le_trans; [exact Hi|]. apply Z.pow_le_mono_r; lia.
  - rewrite <- Z.pow_add_r by lia. apply Z.pow_le_mono_r; lia.
Qed.

(** *** The line of positive numbers *)
Lemma SFpos_valid x :
  SFpos x = true -> valid_binary x = true ->
  x = S754_infinity false \/
  exists m e, x = S754_finite false m e /\ canonical m e /\ e <= 971.
Proof.
  destruct x as [s|[|]|  |[|] m e]; try discriminate; intros _ Hv.
  - now left.
  - right. exists m, e. split; [reflexivity|]. now apply valid_canonical.
Qed.

(** On positive numbers, the infinity included, the comparison of the
    specification is the comparison of the positions. *)
Lemma SFcompare_ord x y :
  SFpos x = true -> valid_binary x = true ->
  SFpos y = true -> valid_binary y = true ->
  SFcompare x y = Some (ord x ?= ord y).
Proof.
  intros Px Vx Py Vy.
  destruct (SFpos_valid x Px Vx) as [->|(mx & ex & -> & Cx & Ex)];
  destruct (SFpos_valid y Py Vy) as [->|(my & ey & -> & Cy & Ey)].
  - reflexivity.
  - pose proof (sc_bound _ _ Cy Ey). cbn [SFcompare ord]. f_equal.
    symmetry. apply Z.compare_gt_iff. lia.
  - pose proof (sc_bound _ _ Cx Ex). cbn [SFcompare ord]. f_equal.
    symmetry. apply Z.compare_lt_iff. lia.
  - now apply SFcompare_canonical.
Qed.

Lemma ord_inj x y :
  SFpos x = true -> valid_binary x = true ->
  SFpos y = true -> valid_binary y = true ->
  ord x = ord y -> x = y.
Proof.
  intros Px Vx Py Vy.
  destruct (SFpos_valid x Px Vx) as [->|(mx & ex & -> & Cx & Ex)];
  destruct (SFpos_valid y Py Vy) as [->|(my & ey & -> & Cy & Ey)]; cbn [ord].
  - reflexivity.
  - pose proof (sc_bound _ _ Cy Ey). lia.
  - pose proof (sc_bound _ _ Cx Ex). lia.
  - intros Heq.
    destruct (Z.lt_trichotomy ex ey) as [Hlt|[->|Hgt]].
    + pose proof (canonical_exp_lt _ _ _ _ Cx Cy Hlt). lia.
    + unfold sc in Heq. apply Z.mul_cancel_r in Heq.
      * now injection Heq as ->.
      * apply Z.pow_nonzero; unfold canonical in Cy; lia.
    + pose proof (canonical_exp_lt _ _ _ _ Cy Cx Hgt). lia.
Qed.

Lemma binary_round_aux_neg m e l :
  SFpos (binary_round_aux prec emax true m e l) = false.
Proof.
  unfold binary_round_aux.
  destruct (shr_fexp prec emax m e l) as [mrs' e'].
  destruct (shr_fexp prec emax _ e' loc_Exact) as [mrs'' e''].
  destruct (shr_m mrs''); [reflexivity| |reflexivity].
  now destruct (e'' <=? emax - prec).
Qed.

(** *** Subtraction and multiplication *)

(** The difference of two positive numbers, when positive, is at most the
    first. *)
Lemma SFsub_le a s :
  SFpos a = true -> valid_binary a = true ->
  SFpos s = true -> valid_binary s = true ->
  SFpos (SFsub prec emax a s) = true ->
  valid_binary (SFsub prec emax a s) = true ->
  ord (SFsub prec emax a s) <= ord a.
Proof.
  intros Pa Va Ps Vs.
  destruct (SFpos_valid a Pa Va) as [->|(ma & ea & -> & Ca & Ea)];
  destruct (SFpos_valid s Ps Vs) as [->|(ms & es & -> & Cs & Es)];
    cbn [SFsub negb]; try discriminate.
  - assert (Hea : -1074 <= ea) by (unfold canonical in Ca; lia).
    assert (Hes : -1074 <= es) by (unfold canonical in Cs; lia).
    cbn [cond_Zopp]. change (IntDef.Z.min ea es) with (Z.min ea es).
    rewrite !shl_align_fst by lia.
    set (ez := Z.min ea es).
    assert (Hez : ez <= ea /\ ez <= es /\ -1074 <= ez) by (unfold ez; lia).
    destruct (Zpos ma * 2 ^ (ea - ez) - Zpos ms * 2 ^ (es - ez)) as [|v|v] eqn:Hv;
      cbn [binary_normalize].
    + discriminate.
    + destruct (binary_round_pos v ez ltac:(lia)) as (m' & e' & Hc & Hr & Hup).
      rewrite Hr.
      assert (Hle : sc v ez <= sc ma ea).
      { unfold sc.
        replace (ea + 1074) with ((ea - ez) + (ez + 1074)) by lia.
        rewrite (Z.pow_add_r 2 (ea - ez) (ez + 1074)) by lia.
        assert (0 < 2 ^ (ez + 1074)) by (apply Z.pow_pos_nonneg; lia).
        assert (0 < Zpos ms * 2 ^ (es - ez))
          by (apply Z.mul_pos_pos; [lia|apply Z.pow_pos_nonneg; lia]).
        rewrite Z.mul_assoc. apply Z.mul_le_mono_nonneg_r; lia. }
      specialize (Hup ma ea Ca Hle).
      destruct (Z.leb_spec e' 971) as [_|Hbig]; intros _ _; cbn [ord];
        [exact Hup|].
      assert (Hee : ea < e') by lia.
      pose proof (canonical_exp_lt _ _ _ _ Ca Hc Hee). lia.
    + unfold binary_round.
      destruct (shl_align v ez _) as [mz ez'].
      rewrite binary_round_aux_neg. discriminate.
Qed.

Lemma shr_1_nonneg mrs : 0 <= shr_m mrs -> 0 <= shr_m (shr_1 mrs).
Proof.
  destruct mrs as [[|[p|p|]|p] r s]; cbn [shr_1 shr_m]; lia.
Qed.

Lemma iter_pos_shr_nonneg p : forall mrs,
  0 <= shr_m mrs -> 0 <= shr_m (SpecFloat.iter_pos shr_1 p mrs).
Proof.
  induction p as [p IH|p IH|]; intros mrs H; simpl.
  - apply IH, IH. now apply shr_1_nonneg.
  - now apply IH, IH.
  - now apply shr_1_nonneg.
Qed.

Lemma shr_fexp_nonneg m e l :
  0 <= m -> 0 <= shr_m (fst (shr_fexp prec emax m e l)).
Proof.
  intros Hm. unfold shr_fexp, shr.
  assert (H0 : 0 <= shr_m (shr_record_of_loc m l))
    by (destruct l as [|[| |]]; exact Hm).
  destruct (fexp prec emax (Zdigits2 m + e) - e); cbn [fst]; try exact H0.
  now apply iter_pos_shr_nonneg.
Qed.

(** Rounding a non-negative mantissa under the sign [sx] yields a zero, a
    finite number or an infinity of that sign. *)
Lemma binary_round_aux_sign sx m e l :
  0 <= m ->
  binary_round_aux prec emax sx m e l = S754_zero sx \/
  (exists m' e', binary_round_aux prec emax sx m e l = S754_finite sx m' e') \/
  binary_round_aux prec emax sx m e l = S754_infinity sx.
Proof.
  intros Hm. unfold binary_round_aux.
  pose proof (shr_fexp_nonneg m e l Hm) as H1.
  destruct (shr_fexp prec emax m e l) as [mrs' e']. cbn [fst] in H1.
  destruct (round_nearest_even_range (shr_m mrs') mrs' eq_refl) as [Hr _].
  cbv zeta in Hr.
  pose proof (shr_fexp_nonneg
    (round_nearest_even (shr_m mrs') (loc_of_shr_record mrs')) e' loc_Exact
    ltac:(lia)) as H2.
  destruct (shr_fexp prec emax _ e' loc_Exact) as [mrs'' e'']. cbn [fst] in H2.
  destruct (shr_m mrs'') as [|p|p]; [now left| |lia].
  right. destruct (e'' <=? emax - prec); [left; eauto | now right].
Qed.

Lemma binary_round_aux_nonneg m e l :
  0 <= m ->
  binary_round_aux prec emax false m e l = S754_zero false \/
  SFpos (binary_round_aux prec emax false m e l) = true.
Proof.
  intros Hm.
  destruct (binary_round_aux_sign false m e l Hm) as [H|[(m' & e' & H)|H]];
    rewrite H; auto.
Qed.

Lemma SFsub_zero a b : SFpos a = true -> SFsub prec emax a (S754_zero b) = a.
Proof. destruct a as [|[|]| |[|] m e]; try discriminate; reflexivity. Qed.

(** Taking a negative number away from a positive one gives a positive
    one. *)
Lemma SFsub_neg_pos a s :
  SFpos a = true -> valid_binary a = true ->
  SFpos (SFopp s) = true -> valid_binary s = true ->
  SFpos (SFsub prec emax a s) = true.
Proof.
  intros Pa Va Ps Vs.
  destruct (SFpos_valid a Pa Va) as [->|(ma & ea & -> & Ca & Ea)];
  destruct s as [|[|]| |[|] ms es]; try discriminate; try reflexivity.
  apply valid_canonical in Vs as [Cs Es].
  assert (Hea : -1074 <= ea) by (unfold canonical in Ca; lia).
  assert (Hes : -1074 <= es) by (unfold canonical in Cs; lia).
  cbn [SFsub cond_Zopp]. change (IntDef.Z.min ea es) with (Z.min ea es).
  rewrite Z.sub_opp_r.
  set (A := fst (shl_align ma ea (Z.min ea es))).
  set (B := fst (shl_align ms es (Z.min ea es))).
  change (Zpos A + Zpos B) with (Zpos (A + B)). cbn [binary_normalize].
  destruct (binary_round_pos (A + B) (Z.min ea es) ltac:(lia))
    as (m' & e' & _ & -> & _).
  now destruct (e' <=? 971).
Qed.

(** The product of two positive numbers is zero or positive. *)
Lemma SFmul_pos_pos x y :
  SFpos x = true -> SFpos y = true ->
  SFmul prec emax x y = S754_zero false \/ SFpos (SFmul prec emax x y) = true.
Proof.
  destruct x as [|[|]| |[|] mx ex]; try discriminate;
  destruct y as [|[|]| |[|] my ey]; try discriminate; intros _ _;
    try (right; reflexivity).
  cbn [SFmul xorb]. apply binary_round_aux_nonneg. lia.
Qed.

(** A positive finite factor times a number that is not positive is not
    positive. *)
Lemma SFmul_pos_nonpos mx ex y :
  SFnonpos y = true ->
  SFnonpos (SFmul prec emax (S754_finite false mx ex) y) = true.
Proof.
  destruct y as [b|[|]| |[|] my ey]; try discriminate; intros _;
    try reflexivity.
  cbn [SFmul xorb].
  destruct (binary_round_aux_sign true (Zpos (mx * my)) (ex + ey) loc_Exact
              ltac:(lia)) as [H|[(m' & e' & H)|H]];
    now rewrite H.
Qed.

Lemma SFsub_nonpos a s :
  SFpos a = true -> valid_binary a = true ->
  SFnonpos s = true -> valid_binary s = true ->
  SFpos (SFsub prec emax a s) = true.
Proof.
  intros Pa Va Ns Vs.
  destruct s as [b|[|]| |[|] ms es] eqn:Es; try discriminate.
  - now rewrite SFsub_zero.
  - now apply SFsub_neg_pos.
  - now apply SFsub_neg_pos.
Qed.

Lemma SFsub_self x :
  SFpos (SFsub prec emax x x) = false /\
  (forall s m e, x = S754_finite s m e -> SFsub prec emax x x = S754_zero false).
Proof.
  destruct x as [[|]|[|]| |s m e]; (split; [try reflexivity|intros; try discriminate]).
  - cbn [SFsub]. rewrite Z.sub_diag. reflexivity.
  - cbn [SFsub]. rewrite Z.sub_diag. reflexivity.
Qed.

(** ** The same facts on primitive floats *)

Lemma ltb_0 x : (0 <? x)%float = SFpos (Prim2SF x).
Proof.
  rewrite ltb_spec. change (Prim2SF 0) with (S754_zero false).
  now destruct (Prim2SF x) as [[|]|[|]| |[|] m e].
Qed.

Lemma leb_0 x : (x <=? 0)%float = true -> (0 <? x)%float = false.
Proof.
  rewrite ltb_0, leb_spec. change (Prim2SF 0) with (S754_zero false).
  now destruct (Prim2SF x) as [[|]|[|]| |[|] m e].
Qed.

Lemma leb_0_nonpos x : (x <=? 0)%float = true -> SFnonpos (Prim2SF x) = true.
Proof.
  rewrite leb_spec. change (Prim2SF 0) with (S754_zero false).
  now destruct (Prim2SF x) as [[|]|[|]| |[|] m e].
Qed.

(** With a step that is not positive, a positive [dr] stays positive. *)
Lemma sub_nonpos_step b d :
  (b <=? 0)%float = true -> (0 <? d)%float = true ->
  (0 <? d - 0.45 * b)%float = true.
Proof.
  intros Hb. rewrite !ltb_0. intros Pd. rewrite sub_spec, mul_spec.
  apply SFsub_nonpos; auto using Prim2SF_valid.
  - change (Prim2SF 0.45) with (S754_finite false 8106479329266893 (-54)).
    now apply SFmul_pos_nonpos, leb_0_nonpos.
  - rewrite <- mul_spec. apply Prim2SF_valid.
Qed.

Lemma sub_zero_r a z :
  (0 <? a)%float = true -> (z =? 0)%float = true -> (a - z)%float = a.
Proof.
  rewrite ltb_0, FloatAxioms.eqb_spec. change (Prim2SF 0) with (S754_zero false).
  intros Pa Hz. apply Prim2SF_inj. rewrite sub_spec.
  destruct (Prim2SF z) as [b|[|]| |[|] m e]; try discriminate.
  now apply SFsub_zero.
Qed.

Lemma ltb_ord x y :
  (0 <? x)%float = true -> (0 <? y)%float = true ->
  (x <? y)%float = (ord (Prim2SF x) <? ord (Prim2SF y)).
Proof.
  rewrite !ltb_0. intros Px Py. rewrite ltb_spec. unfold SFltb.
  rewrite (SFcompare_ord _ _ Px (Prim2SF_valid x) Py (Prim2SF_valid y)).
  unfold Z.ltb. now destruct (ord (Prim2SF x) ?= ord (Prim2SF y)).
Qed.

Lemma ord_eq x y :
  (0 <? x)%float = true -> (0 <? y)%float = true ->
  ord (Prim2SF x) = ord (Prim2SF y) -> x = y.
Proof.
  rewrite !ltb_0. intros Px Py H. apply Prim2SF_inj.
  apply ord_inj; auto using Prim2SF_valid.
Qed.

Lemma sub_le d s :
  (0 <? d)%float = true -> (0 <? s)%float = true ->
  (0 <? d - s)%float = true ->
  ord (Prim2SF (d - s)) <= ord (Prim2SF d).
Proof.
  rewrite !ltb_0. intros Pd Ps Pds. rewrite sub_spec in *.
  apply SFsub_le; auto using Prim2SF_valid.
  rewrite <- sub_spec. apply Prim2SF_valid.
Qed.

Lemma ord_pos x : (0 <? x)%float = true -> 0 < ord (Prim2SF x).
Proof.
  rewrite ltb_0. intros Px.
  destruct (SFpos_valid _ Px (Prim2SF_valid x)) as [->|(m & e & -> & C & E)];
    cbn [ord].
  - reflexivity.
  - now apply sc_bound.
Qed.

(** A positive factor times a positive number is zero (by underflow) or
    positive. *)
Lemma mul_pos x y :
  (0 <? x)%float = true -> (0 <? y)%float = true ->
  (x * y)%float = 0%float \/ (0 <? x * y)%float = true.
Proof.
  rewrite !ltb_0. intros Px Py. rewrite mul_spec.
  destruct (SFmul_pos_pos _ _ Px Py) as [Hz|Hp]; [left|now right].
  apply Prim2SF_inj. now rewrite mul_spec.
Qed.

(** Half the difference of a number with itself is never positive, and it
    is zero when the number is finite. *)
Lemma half_sub_self d :
  (0 <? (d - d) * 0.5)%float = false /\
  (finite d = true -> ((d - d) * 0.5)%float = 0%float).
Proof.
  rewrite ltb_0. unfold finite. rewrite <- (SF2Prim_Prim2SF ((d - d) * 0.5)).
  rewrite mul_spec, sub_spec. unfold SF64mul, SF64sub.
  change (Prim2SF 0.5) with (S754_finite false 4503599627370496 (-53)).
  destruct (SFsub_self (Prim2SF d)) as [_ Hfin].
  destruct (Prim2SF d) as [[|]|[|]| |b m e] eqn:Ed;
    try (split; [reflexivity|]; intros; try discriminate; reflexivity).
  rewrite (Hfin b m e eq_refl). split; reflexivity.
Qed.

(** One round of [dr -= s] that keeps [dr] positive: the new value is
    smaller, or it is the old one, or no round with this [s] ever leaves
    the positive range. *)
Lemma sub_step d s :
  (0 <? d)%float = true -> (0 <? d - s)%float = true ->
  (d - s <? d)%float = true \/ (d - s)%float = d \/
  (forall d', (0 <? d')%float = true -> (0 <? d' - s)%float = true).
Proof.
  intros Pd Pds.
  destruct (Prim2SF s) as [b|[|]| |[|] ms es] eqn:Es.
  - right; left. apply Prim2SF_inj. rewrite sub_spec, Es.
    apply SFsub_zero. now rewrite <- ltb_0.
  - right; right. intros d' Pd'. rewrite ltb_0 in *. rewrite sub_spec.
    apply SFsub_neg_pos; auto using Prim2SF_valid; now rewrite Es.
  - exfalso. rewrite ltb_0 in *. rewrite sub_spec, Es in Pds.
    destruct (Prim2SF d) as [|[|]| |[|] m e]; discriminate.
  - exfalso. rewrite ltb_0 in *. rewrite sub_spec, Es in Pds.
    destruct (Prim2SF d) as [|[|]| |[|] m e]; discriminate.
  - right; right. intros d' Pd'. rewrite ltb_0 in *. rewrite sub_spec.
    apply SFsub_neg_pos; auto using Prim2SF_valid; now rewrite Es.
  - assert (Hle : ord (Prim2SF (d - s)) <= ord (Prim2SF d)).
    { apply sub_le; try assumption. now rewrite ltb_0, Es. }
    destruct (Z.eq_dec (ord (Prim2SF (d - s))) (ord (Prim2SF d))) as [E|N].
    + right; left. now apply ord_eq.
    + left. rewrite ltb_ord by assumption. apply Z.ltb_lt. lia.
Qed.

End Binary64.


(** ** Properties of the circle loops *)

Section LoopProperties.

Variable bitSize : float.

Local Abbreviation step_size := (0.45 * bitSize)%float.
Local Abbreviation radii_loop := (radii_loop bitSize).
Local Abbreviation draw_hole := (draw_hole bitSize).
Local Abbreviation draw_holes := (draw_holes bitSize).

Lemma dr_at_shift s R k : dr_at s (R - s)%float k = dr_at s R (S k).
Proof. induction k as [|k IH]; simpl; [reflexivity | now rewrite IH]. Qed.

Lemma map_dr_at_shift s R n :
  map (dr_at s (R - s)%float) (seq 0 n) = map (dr_at s R) (seq 1 n).
Proof.
  rewrite <- seq_shift, map_map. apply map_ext. intros k. apply dr_at_shift.
Qed.

(** The first loop, when [dr] first fails [dr > 0] after [n] rounds. *)
Lemma radii_loop_exit n : forall fuel R acc,
  (forall k, (k < n)%nat -> (0 <? dr_at step_size R k)%float = true) ->
  (0 <? dr_at step_size R n)%float = false ->
  (n < fuel)%nat ->
  radii_loop fuel R acc = Some (acc ++ map (dr_at step_size R) (seq 0 n)).
Proof.
  induction n as [|n IH]; intros fuel R acc Hpos Hend Hfuel;
    (destruct fuel as [|fuel]; [lia|]); simpl in *.
  - rewrite Hend. now rewrite app_nil_r.
  - pose proof (Hpos 0%nat ltac:(lia)) as H0. simpl in H0. rewrite H0.
    rewrite (IH fuel (R - step_size)%float).
    + now rewrite map_dr_at_shift, <- app_assoc.
    + intros k Hk. rewrite dr_at_shift. apply Hpos. lia.
    + now rewrite dr_at_shift.
    + lia.
Qed.

(** Conversely, a loop that ends has met such an [n]. *)
Lemma radii_loop_Some fuel : forall R acc l,
  radii_loop fuel R acc = Some l ->
  exists n,
    (n < fuel)%nat /\
    (forall k, (k < n)%nat -> (0 <? dr_at step_size R k)%float = true) /\
    (0 <? dr_at step_size R n)%float = false /\
    l = acc ++ map (dr_at step_size R) (seq 0 n).
Proof.
  induction fuel as [|fuel IH]; intros R acc l; simpl; [discriminate|].
  destruct (0 <? R)%float eqn:HR.
  - intros H. destruct (IH _ _ _ H) as (n & Hn & Hpos & Hend & ->).
    exists (S n). split; [lia|]. split; [|split].
    + intros [|k] Hk; [exact HR|]. rewrite <- dr_at_shift. apply Hpos. lia.
    + now rewrite <- dr_at_shift.
    + now rewrite map_dr_at_shift, <- app_assoc.
  - intros [= <-]. exists 0%nat. split; [lia|]. split; [intros k; lia|].
    split; [exact HR|]. now rewrite app_nil_r.
Qed.

(** More fuel does not change the result of a loop that ended. *)
Lemma radii_loop_fuel fuel1 fuel2 R acc l1 l2 :
  radii_loop fuel1 R acc = Some l1 -> radii_loop fuel2 R acc = Some l2 ->
  l1 = l2.
Proof.
  intros H1 H2.
  destruct (radii_loop_Some _ _ _ _ H1) as (n1 & _ & Hp1 & He1 & ->).
  destruct (radii_loop_Some _ _ _ _ H2) as (n2 & _ & Hp2 & He2 & ->).
  destruct (Nat.lt_trichotomy n1 n2) as [Hlt|[->|Hlt]]; [|reflexivity|].
  - rewrite (Hp2 n1 Hlt) in He1. discriminate.
  - rewrite (Hp1 n2 Hlt) in He2. discriminate.
Qed.

(** The second loop walks the slice from its last element down. *)
Lemma circles_from_take h radii n :
  (n <= length radii)%nat ->
  circles_from h radii n = map (Circle (Cx h) (Cy h)) (rev (take n radii)).
Proof.
  induction n as [|n IH]; intros Hn; simpl; [reflexivity|].
  destruct (lookup_lt_is_Some_2 radii n ltac:(lia)) as [r Hr].
  rewrite Hr, (take_S_r _ _ _ Hr), rev_app_distr. simpl.
  now rewrite IH by lia.
Qed.

Lemma circles_from_rev h radii :
  circles_from h radii (length radii) = map (Circle (Cx h) (Cy h)) (rev radii).
Proof. rewrite circles_from_take by lia. now rewrite firstn_all. Qed.

Lemma draw_holes_app fuel hs1 : forall hs2 cs1 cs2,
  draw_holes fuel hs1 = Some cs1 -> draw_holes fuel hs2 = Some cs2 ->
  draw_holes fuel (hs1 ++ hs2) = Some (cs1 ++ cs2).
Proof.
  induction hs1 as [|h hs1 IH]; simpl; intros hs2 cs1 cs2.
  - now intros [= <-] ->.
  - destruct (draw_hole fuel h) as [c|]; [|discriminate].
    destruct (draw_holes fuel hs1) as [cs|] eqn:Hd; [|discriminate].
    intros [= <-] H2. rewrite (IH _ _ _ eq_refl H2).
    now rewrite app_assoc.
Qed.

Lemma draw_holes_fuel hs : forall fuel1 fuel2 cs1 cs2,
  draw_holes fuel1 hs = Some cs1 -> draw_holes fuel2 hs = Some cs2 ->
  cs1 = cs2.
Proof.
  induction hs as [|h hs IH]; simpl; intros fuel1 fuel2 cs1 cs2.
  - now intros [= <-] [= <-].
  - unfold Drl.draw_hole.
    destruct (radii_loop fuel1 (Radius h) []) as [l1|] eqn:H1; [|discriminate].
    destruct (radii_loop fuel2 (Radius h) []) as [l2|] eqn:H2; [|discriminate].
    destruct (draw_holes fuel1 hs) as [c1|] eqn:D1; [|discriminate].
    destruct (draw_holes fuel2 hs) as [c2|] eqn:D2; [|discriminate].
    intros [= <-] [= <-].
    now rewrite (radii_loop_fuel _ _ _ _ _ _ H1 H2), (IH _ _ _ _ D1 D2).
Qed.

Lemma dr_at_add s R k j : dr_at s (dr_at s R k) j = dr_at s R (k + j).
Proof.
  induction j as [|j IH]; simpl.
  - now rewrite Nat.add_0_r.
  - now rewrite IH, Nat.add_succ_r.
Qed.

Lemma dr_at_stuck s d : (d - s)%float = d -> forall k, dr_at s d k = d.
Proof. intros H k. induction k as [|k IH]; simpl; [reflexivity|]. now rewrite IH. Qed.

Lemma dr_at_positive s d :
  (forall d', (0 <? d')%float = true -> (0 <? d' - s)%float = true) ->
  (0 <? d)%float = true -> forall k, (0 <? dr_at s d k)%float = true.
Proof. intros H Hd k. induction k as [|k IH]; simpl; auto. Qed.

(** While the loop runs towards its exit, every round makes [dr] smaller. *)
Lemma dr_at_decreases s R n :
  (forall k, (k < n)%nat -> (0 <? dr_at s R k)%float = true) ->
  (0 <? dr_at s R n)%float = false ->
  forall k, (S k < n)%nat -> (dr_at s R (S k) <? dr_at s R k)%float = true.
Proof.
  intros Hpos Hend k Hk.
  assert (Hforever : (forall j, (0 <? dr_at s (dr_at s R k) j)%float = true) -> False).
  { intros H. specialize (H (n - k)%nat). rewrite dr_at_add in H.
    replace (k + (n - k))%nat with n in H by lia. congruence. }
  destruct (sub_step (dr_at s R k) s) as [Hlt|[Heq|Hall]].
  - apply Hpos. lia.
  - apply (Hpos (S k)). lia.
  - exact Hlt.
  - exfalso. apply Hforever. intros j.
    rewrite (dr_at_stuck _ _ Heq). apply Hpos. lia.
  - exfalso. apply Hforever. apply dr_at_positive; [exact Hall|].
    apply Hpos. lia.
Qed.

(** C5.  A hole whose cut radius is zero or less gets no circle.  In
    particular, the radius selected for a tool whose scaled diameter equals
    the bit diameter, [(bitSize - bitSize) * 0.5], is never positive (it is
    0 when the bit diameter is finite), and a hole cut with it gets no
    circle. *)
Theorem C5_nonpositive_radius_draws_nothing fuel h :
  (Radius h <=? 0)%float = true \/ Radius h = ((bitSize - bitSize) * 0.5)%float ->
  draw_hole (S fuel) h = Some [] /\
  (Radius h = ((bitSize - bitSize) * 0.5)%float -> finite bitSize = true ->
   Radius h = 0%float).
Proof.
  intros H. split.
  - assert (Hnp : (0 <? Radius h)%float = false).
    { destruct H as [H| ->]; [now apply leb_0 | apply half_sub_self]. }
    unfold Drl.draw_hole. simpl. now rewrite Hnp.
  - intros -> Hfin. now apply half_sub_self.
Qed.

End LoopProperties.


(** ** Termination of the circle loop *)

Lemma first_exit_below (f : nat -> bool) n :
  (forall k, (k < n)%nat -> f k = true) \/
  (exists n0, (n0 < n)%nat /\ (forall k, (k < n0)%nat -> f k = true) /\ f n0 = false).
Proof.
  induction n as [|n [Hall|(n0 & Hlt & Hpos & Hend)]].
  - left. intros k Hk. lia.
  - destruct (f n) eqn:Hn.
    + left. intros k Hk. destruct (Nat.eq_dec k n) as [->|]; [exact Hn|].
      apply Hall. lia.
    + right. exists n. split; [lia|]. split; assumption.
  - right. exists n0. split; [lia|]. split; assumption.
Qed.

Lemma first_exit (f : nat -> bool) n :
  f n = false ->
  exists n0, (n0 <= n)%nat /\ (forall k, (k < n0)%nat -> f k = true) /\ f n0 = false.
Proof.
  intros Hn. destruct (first_exit_below f n) as [Hall|(n0 & Hlt & Hpos & Hend)].
  - exists n. split; [lia|]. split; assumption.
  - exists n0. split; [lia|]. split; assumption.
Qed.

Lemma loop_ends_iff bitSize R :
  (exists fuel l, radii_loop bitSize fuel R [] = Some l) <->
  (exists n, (0 <? dr_at (0.45 * bitSize) R n)%float = false).
Proof.
  split.
  - intros (fuel & l & H).
    destruct (radii_loop_Some _ _ _ _ _ H) as (n & _ & _ & Hend & _). eauto.
  - intros (n & Hn).
    destruct (first_exit (fun k => (0 <? dr_at (0.45 * bitSize) R k)%float) n Hn)
      as (n0 & _ & Hpos & Hend).
    exists (S n0). eexists. apply (radii_loop_exit bitSize n0); auto.
Qed.

(** With a bit diameter of zero or less the step is not positive, and a
    positive [dr] stays positive for ever. *)
Lemma nonpos_bit_loops bitSize fuel : forall R acc,
  (bitSize <=? 0)%float = true -> (0 <? R)%float = true ->
  radii_loop bitSize fuel R acc = None.
Proof.
  induction fuel as [|fuel IH]; intros R acc HB HR; simpl; [reflexivity|].
  rewrite HR. apply IH; [exact HB|]. now apply sub_nonpos_step.
Qed.

(** As long as every round changes [dr], a positive step brings it out of
    the positive range: its position among the binary64 numbers goes down
    at every round. *)
Lemma changing_rounds_exit s R :
  (0 <? s)%float = true ->
  (forall k, (forall j, (j <= k)%nat -> (0 <? dr_at s R j)%float = true) ->
             dr_at s R (S k) <> dr_at s R k) ->
  forall N k,
    (forall j, (j <= k)%nat -> (0 <? dr_at s R j)%float = true) ->
    (ord (Prim2SF (dr_at s R k)) <= Z.of_nat N)%Z ->
    exists n, (0 <? dr_at s R n)%float = false.
Proof.
  intros Hs Hchange N.
  induction N as [|N IH]; intros k Hpos Hord.
  - pose proof (ord_pos _ (Hpos k (Nat.le_refl k))). lia.
  - destruct (0 <? dr_at s R (S k))%float eqn:Hnext; [|now exists (S k)].
    apply (IH (S k)).
    + intros j Hj. destruct (Nat.eq_dec j (S k)) as [->|]; [exact Hnext|].
      apply Hpos. lia.
    + pose proof (sub_le (dr_at s R k) s (Hpos k (Nat.le_refl k)) Hs Hnext) as Hle.
      assert (ord (Prim2SF (dr_at s R (S k))) <> ord (Prim2SF (dr_at s R k))).
      { intros E. apply (Hchange k Hpos).
        apply ord_eq; [exact Hnext | apply Hpos; lia | exact E]. }
      simpl in *. lia.
Qed.

Lemma positive_bit_loop_ends bitSize R :
  (0 <? bitSize)%float = true ->
  (forall k,
     (forall j, (j <= k)%nat -> (0 <? dr_at (0.45 * bitSize) R j)%float = true) ->
     dr_at (0.45 * bitSize) R (S k) <> dr_at (0.45 * bitSize) R k) ->
  exists fuel l, radii_loop bitSize fuel R [] = Some l.
Proof.
  intros HB Hchange. apply loop_ends_iff.
  destruct (0 <? R)%float eqn:HR; [|now exists 0%nat].
  assert (H0 : forall j, (j <= 0)%nat -> (0 <? dr_at (0.45 * bitSize) R j)%float = true).
  { intros j Hj. replace j with 0%nat by lia. exact HR. }
  destruct (mul_pos 0.45 bitSize eq_refl HB) as [Hz|Hs].
  - exfalso. apply (Hchange 0%nat H0). simpl. rewrite Hz.
    now apply sub_zero_r.
  - apply (changing_rounds_exit _ R Hs Hchange
             (Z.to_nat (ord (Prim2SF R))) 0%nat H0).
    simpl. pose proof (ord_pos _ HR). lia.
Qed.


(** ** The whole program *)

Section WholeProgram.

Variable Sscanf_TdCf : string -> option (Z * float).
Variable Sscanf_XfYf : string -> option (float * float).
Variable bitSize : float.

Local Abbreviation main := (main Sscanf_TdCf Sscanf_XfYf bitSize).

(** The fuel only bounds how long a run is watched: it has no part in the
    outcome of a run that reaches its end. *)
Lemma main_fuel_irrelevant fuel1 fuel2 lines r1 r2 :
  main fuel1 lines = Some r1 -> main fuel2 lines = Some r2 -> r1 = r2.
Proof.
  unfold Drl.main.
  destruct (parse Sscanf_TdCf Sscanf_XfYf bitSize lines) as [st|l].
  - destruct (draw_holes bitSize fuel1 (holes st)) as [cs1|] eqn:D1; [|discriminate].
    destruct (draw_holes bitSize fuel2 (holes st)) as [cs2|] eqn:D2; [|discriminate].
    intros [= <-] [= <-]. now rewrite (draw_holes_fuel _ _ _ _ _ _ D1 D2).
  - now intros [= <-] [= <-].
Qed.

End WholeProgram.


(** ** The program on concrete drill files *)

Lemma lit_Some c s r : ScanModel.lit c s = Some r -> s = String c r.
Proof.
  destruct s as [|c' s']; simpl; [discriminate|].
  destruct (Ascii.eqb c c') eqn:E; [|discriminate].
  apply Ascii.eqb_eq in E as ->. now intros [= ->].
Qed.

Lemma ScanModel_TdCf_T line r :
  ScanModel.Sscanf_TdCf line = Some r -> exists rest, line = String "T" rest.
Proof.
  unfold ScanModel.Sscanf_TdCf.
  destruct (ScanModel.lit "T" line) as [s1|] eqn:E; [|discriminate].
  intros _. apply lit_Some in E. eauto.
Qed.

Lemma ScanModel_XfYf_X line r :
  ScanModel.Sscanf_XfYf line = Some r -> exists rest, line = String "X" rest.
Proof.
  unfold ScanModel.Sscanf_XfYf.
  destruct (ScanModel.lit "X" line) as [s1|] eqn:E; [|discriminate].
  intros _. apply lit_Some in E. eauto.
Qed.

(** C1 (the code departs from the claim).  With the unit set to inches, the
    line [T1C0.1] defines a tool of 0.1 in = 2.54 mm, which is not smaller
    than the 0.7 mm bit; the run is nevertheless ended by [log.Fatalf] on
    that line.  Line 68 compares the number read from the line with the
    bit diameter before it is scaled: a tool definition is fatal exactly
    when that unscaled number is below the bit diameter, whatever the
    unit. *)
Theorem C1_inch_tool_rejected :
  ScanModel.Sscanf_TdCf "T1C0.1" = Some (1%Z, 0.1%float) /\
  (0.1 * 25.4 <? 0.7)%float = false /\
  (0.1 <? 0.7)%float = true /\
  drl2svg_parse 0.7 ["INCH"; "T1C0.1"] = Fatal "T1C0.1" /\
  (forall fuel, drl2svg 0.7 fuel ["INCH"; "T1C0.1"] = Some (Fatal "T1C0.1")) /\
  (forall bitSize st line tool p,
     ScanModel.Sscanf_TdCf line = Some (tool, p) ->
     step ScanModel.Sscanf_TdCf ScanModel.Sscanf_XfYf bitSize st line = Fatal line
     <-> (p <? bitSize)%float = true).
Proof.
  split; [vm_compute; reflexivity|].
  split; [vm_compute; reflexivity|].
  split; [vm_compute; reflexivity|].
  split; [vm_compute; reflexivity|].
  split; [intros fuel; vm_compute; reflexivity|].
  intros bitSize st line tool p.
  apply tool_definition_fatal_iff. exact ScanModel_TdCf_T.
Qed.

(** C3 (the code departs from the claim).  On [INCH], [T1C0.1], [T1] with a
    bit diameter of 0.7 the scaled diameter would be 2.54 and the cut radius
    0.92, but no tool is recorded and no radius selected: the run is ended
    by [log.Fatalf] on the tool definition. *)
Theorem C3_inch_example_is_fatal :
  (0.1 * 25.4)%float = 2.54%float /\
  ((2.54 - 0.7) * 0.5)%float = 0.92%float /\
  drl2svg_scan 0.7 init ["INCH"] =
    Done (mkState ∅ [] 0 0 25.4 0 0 0 0) /\
  step ScanModel.Sscanf_TdCf ScanModel.Sscanf_XfYf 0.7
    (mkState ∅ [] 0 0 25.4 0 0 0 0) "T1C0.1" = Fatal "T1C0.1" /\
  drl2svg_parse 0.7 ["INCH"; "T1C0.1"; "T1"] = Fatal "T1C0.1".
Proof. repeat (split; [vm_compute; reflexivity|]). vm_compute. reflexivity. Qed.

(** What a run of the scanning loop leaves behind, read off the value of
    [drl2svg_parse]. *)
Lemma parse_view bitSize lines st :
  drl2svg_parse bitSize lines = Done st ->
  match drl2svg_parse bitSize lines with
  | Done st' => holes st' | Fatal _ => []
  end = holes st /\
  match drl2svg_parse bitSize lines with
  | Done st' => maxToolDiameter st' | Fatal _ => 0%float
  end = maxToolDiameter st /\
  match drl2svg_parse bitSize lines with
  | Done st' => edges st' | Fatal _ => (0, 0, 0, 0)%float
  end = edges st.
Proof. now intros ->. Qed.

(** Runs [drl2svg_parse] on the lines of the goal and records the holes,
    the largest diameter and the edges of the state it ends in. *)
Ltac run_parse st Hp Hholes Hmax Hedges :=
  match goal with
  | |- context [drl2svg_parse ?b ?lines] =>
      destruct (drl2svg_parse b lines) as [st|] eqn:Hp;
      [ destruct (parse_view _ _ _ Hp) as (Hholes & Hmax & Hedges);
        vm_compute in Hholes, Hmax, Hedges;
        match type of Hholes with ?v = _ => change (v = holes st) in Hholes end;
        match type of Hmax with ?v = _ => change (v = maxToolDiameter st) in Hmax end;
        match type of Hedges with ?v = _ => change (v = edges st) in Hedges end;
        symmetry in Hholes; symmetry in Hmax; symmetry in Hedges
      | vm_compute in Hp; discriminate ]
  end.

Lemma C4_witness :
  exists st,
    drl2svg_parse 1 ["METRIC"; "T1C3"; "T1"; "X10Y10"] = Done st /\
    edges st = (6, 14, 6, 14)%float.
Proof.
  run_parse st Hp Hholes Hmax Hedges.
  destruct (C4_single_hole_extent ScanModel.Sscanf_TdCf ScanModel.Sscanf_XfYf 1
              ["METRIC"; "T1C3"; "T1"; "X10Y10"] st Hp Hholes Hmax)
    as (st0 & _ & _ & _ & He).
  exists st. split; [reflexivity | exact He].
Defined.

Lemma C5_witness :
  draw_hole 0.7 1 (mkHole 0 3 4) = Some [] /\
  draw_hole 0.7 1 (mkHole ((0.7 - 0.7) * 0.5) 3 4) = Some [].
Proof.
  split.
  - exact (proj1 (C5_nonpositive_radius_draws_nothing 0.7 0 (mkHole 0 3 4)
                    (or_introl eq_refl))).
  - exact (proj1 (C5_nonpositive_radius_draws_nothing 0.7 0
                    (mkHole ((0.7 - 0.7) * 0.5) 3 4) (or_intror eq_refl))).
Defined.

(** C6 as stated fails: one accepted tool definition and no hole leave a
    final extent of -3, 3, -3, 3. *)
Lemma C6_counterexample :
  ~ (forall lines st,
       drl2svg_parse 0.7 lines = Done st -> holes st = [] ->
       edges st = (0, 0, 0, 0)%float).
Proof.
  intros H.
  cut (exists st, drl2svg_parse 0.7 ["METRIC"; "T1C3"] = Done st /\
                  holes st = [] /\ edges st = (-3, 3, -3, 3)%float).
  - intros (st & Hp & Hholes & Hedges).
    rewrite (H _ _ Hp Hholes) in Hedges.
    apply (f_equal (fun e => (fst (fst (fst e)) =? 0)%float)) in Hedges.
    vm_compute in Hedges. discriminate.
  - run_parse st Hp Hholes Hmax Hedges. now exists st.
Qed.

Lemma C6_witness :
  exists st,
    drl2svg_parse 0.7 ["METRIC"; "T1C3"] = Done st /\
    holes st = [] /\
    edges st = (-3, 3, -3, 3)%float.
Proof.
  run_parse st Hp Hholes Hmax Hedges.
  destruct (C6_no_holes_extent ScanModel.Sscanf_TdCf ScanModel.Sscanf_XfYf 0.7
              _ _ Hp Hholes) as (_ & _ & _ & _ & He & _).
  exists st. split; [reflexivity|]. split; [exact Hholes|].
  rewrite He, Hmax. reflexivity.
Defined.

Lemma C7_witness :
  exists st st',
    drl2svg_scan 0.7 init ["METRIC"; "T1C1.0"] = Done st /\
    step ScanModel.Sscanf_TdCf ScanModel.Sscanf_XfYf 0.7 st "X1.0Y2.0" = Done st' /\
    holes st' = holes st ++ [mkHole 0 (1.0 * factor st) (2.0 * factor st)].
Proof.
  destruct (drl2svg_scan 0.7 init ["METRIC"; "T1C1.0"]) as [st|l] eqn:Hs;
    [|vm_compute in Hs; discriminate].
  destruct (C7_coordinate_before_selection
              ScanModel.Sscanf_TdCf ScanModel.Sscanf_XfYf 0.7
              ScanModel_TdCf_T ScanModel_XfYf_X
              ["METRIC"; "T1C1.0"] st "X1.0Y2.0" 1.0%float 2.0%float
              Hs eq_refl eq_refl) as (st' & Hstep & Hholes).
  exists st, st'. split; [reflexivity|]. split; [exact Hstep | exact Hholes].
Defined.

Lemma C9_witness :
  exists st1,
    drl2svg_scan 0.7 init ["METRIC"; "T01C1.0"] = Done st1 /\
    tools st1 !! "T1" = Some 1%float /\
    tools st1 !! "T01" = None /\
    step ScanModel.Sscanf_TdCf ScanModel.Sscanf_XfYf 0.7 st1 "T01" = Done st1 /\
    exists st2,
      step ScanModel.Sscanf_TdCf ScanModel.Sscanf_XfYf 0.7 st1 "T1" = Done st2 /\
      toolRadius st2 = ((1 - 0.7) * 0.5)%float.
Proof.
  pose (st := mkState ∅ [] 0 0 1 0 0 0 0).
  destruct (C9_normalised_tool_key
              ScanModel.Sscanf_TdCf ScanModel.Sscanf_XfYf 0.7 ScanModel_TdCf_T
              ["METRIC"] st "T01C1.0" 1%Z 1%float
              eq_refl eq_refl eq_refl)
    as (st1 & Hstep & Hkey & _ & _ & Hno & Hskip & Hsel).
  exists st1. split.
  { transitivity (match step ScanModel.Sscanf_TdCf ScanModel.Sscanf_XfYf 0.7
                          st "T01C1.0" with
                  | Done st' => Done st'
                  | Fatal l => Fatal l
                  end); [reflexivity|].
    now rewrite Hstep. }
  split; [exact Hkey|]. split; [exact Hno|]. split.
  - apply Hskip; [discriminate | discriminate | exact Hno | reflexivity | reflexivity].
  - exact (Hsel eq_refl).
Defined.

(** The step 0.45 * 0.7 is lost in the rounding of 1e16 - 0.315. *)
Lemma absorbed_loop fuel : forall acc, radii_loop 0.7 fuel 1e16 acc = None.
Proof.
  induction fuel as [|fuel IH]; intros acc; [reflexivity|].
  change (radii_loop 0.7 (S fuel) 1e16 acc)
    with (radii_loop 0.7 fuel 1e16 (acc ++ [1e16%float])).
  apply IH.
Qed.

(** C10 (as amended).  With a bit diameter of zero or less (0 in
    particular) the loop never ends for a positive radius, and the program
    takes such a bit diameter.  In general the loop ends exactly when some
    round brings [dr] out of the positive range; with a positive bit
    diameter this happens as soon as no round leaves [dr] unchanged. *)
Theorem C10_loop_termination :
  (forall bitSize R fuel acc,
     (bitSize <=? 0)%float = true -> (0 <? R)%float = true ->
     radii_loop bitSize fuel R acc = None) /\
  (forall R fuel acc, (0 <? R)%float = true -> radii_loop 0 fuel R acc = None) /\
  (forall fuel, drl2svg 0 fuel ["METRIC"; "T1C1"; "T1"; "X0Y0"] = None) /\
  (forall bitSize R,
     (exists fuel l, radii_loop bitSize fuel R [] = Some l) <->
     (exists n, (0 <? dr_at (0.45 * bitSize) R n)%float = false)) /\
  (forall bitSize R,
     (0 <? bitSize)%float = true ->
     (forall k,
        (forall j, (j <= k)%nat ->
           (0 <? dr_at (0.45 * bitSize) R j)%float = true) ->
        dr_at (0.45 * bitSize) R (S k) <> dr_at (0.45 * bitSize) R k) ->
     exists fuel l, radii_loop bitSize fuel R [] = Some l).
Proof.
  split; [intros B R fuel acc HB HR; now apply nonpos_bit_loops|].
  split; [intros R fuel acc HR; now apply nonpos_bit_loops|].
  split; [|split; [exact loop_ends_iff | exact positive_bit_loop_ends]].
  intros fuel. unfold drl2svg, main.
  fold (drl2svg_parse 0 ["METRIC"; "T1C1"; "T1"; "X0Y0"]).
  run_parse st Hp Hholes Hmax Hedges.
  rewrite Hholes. simpl. unfold draw_hole. simpl.
  now rewrite (nonpos_bit_loops 0 fuel 0.5%float [] eq_refl eq_refl).
Qed.

(** C10 as stated fails: the bit diameter 0.7 is positive, yet for the
    radius 1e16, the one selected by a tool of diameter 2e16, the loop never
    ends. *)
Lemma C10_counterexample :
  ~ (forall bitSize R, (0 <? bitSize)%float = true ->
       exists fuel l, radii_loop bitSize fuel R [] = Some l) /\
  (forall fuel,
     drl2svg 0.7 fuel ["METRIC"; "T1C20000000000000000"; "T1"; "X1Y1"] = None).
Proof.
  split.
  - intros H. destruct (H 0.7%float 1e16%float eq_refl) as (fuel & l & Hl).
    rewrite absorbed_loop in Hl. discriminate.
  - intros fuel. unfold drl2svg, main.
    fold (drl2svg_parse 0.7 ["METRIC"; "T1C20000000000000000"; "T1"; "X1Y1"]).
    run_parse st Hp Hholes Hmax Hedges.
    rewrite Hholes. simpl. unfold draw_hole. simpl.
    now rewrite absorbed_loop.
Qed.

Lemma C10_witness :
  exists fuel l, radii_loop 0.7 fuel 0.92 [] = Some l.
Proof.
  apply (proj2 (proj2 (proj2 (proj2 C10_loop_termination))) 0.7%float 0.92%float eq_refl).
  intros [|[|[|k]]] Hpos.
  - vm_compute. discriminate.
  - vm_compute. discriminate.
  - vm_compute. discriminate.
  - specialize (Hpos 3%nat ltac:(lia)). vm_compute in Hpos. discriminate.
Defined.

(** ** The order of all binary64 numbers *)

Section Binary64Order.

Local Open Scope Z_scope.

Lemma SFnum_valid x :
  SFnum x = true -> valid_binary x = true ->
  (exists b, x = S754_zero b) \/ (exists b, x = S754_infinity b) \/
  exists b m e, x = S754_finite b m e /\ canonical m e /\ e <= 971.
Proof.
  destruct x as [b|b| |b m e]; try discriminate; intros _ Hv; eauto.
  right; right. exists b, m, e. split; [reflexivity|].
  now apply valid_canonical.
Qed.

(** Between numbers, the comparison of the specification is the
    comparison of the positions. *)
Lemma SFcompare_zord x y :
  SFnum x = true -> valid_binary x = true ->
  SFnum y = true -> valid_binary y = true ->
  SFcompare x y = Some (zord x ?= zord y).
Proof.
  intros Nx Vx Ny Vy.
  destruct (SFnum_valid x Nx Vx) as [[bx ->]|[[bx ->]|(bx & mx & ex & -> & Cx & Ex)]];
  destruct (SFnum_valid y Ny Vy) as [[b ->]|[[b ->]|(b & my & ey & -> & Cy & Ey)]];
    try pose proof (sc_bound _ _ Cx Ex) as Bx;
    try pose proof (sc_bound _ _ Cy Ey) as By.
  - reflexivity.
  - now destruct b.
  - destruct b; cbn [SFcompare zord]; f_equal; symmetry;
      [apply Z.compare_gt_iff | apply Z.compare_lt_iff]; lia.
  - now destruct bx.
  - now destruct bx, b.
  - destruct bx, b; cbn [SFcompare zord]; f_equal; symmetry;
      first [apply Z.compare_gt_iff; lia | apply Z.compare_lt_iff; lia].
  - destruct bx; cbn [SFcompare zord]; f_equal; symmetry;
      [apply Z.compare_lt_iff | apply Z.compare_gt_iff]; lia.
  - destruct bx, b; cbn [SFcompare zord]; f_equal; symmetry;
      first [apply Z.compare_gt_iff; lia | apply Z.compare_lt_iff; lia].
  - pose proof (SFcompare_canonical _ _ _ _ Cx Cy) as Hc.
    destruct bx, b; cbn [zord].
    + rewrite Z.compare_opp, (Z.compare_antisym (sc mx ex) (sc my ey)).
      cbn [SFcompare] in Hc |- *. injection Hc as Hc. rewrite <- Hc.
      f_equal. now destruct (ex ?= ey).
    + cbn [SFcompare]. f_equal. symmetry. apply Z.compare_lt_iff. lia.
    + cbn [SFcompare]. f_equal. symmetry. apply Z.compare_gt_iff. lia.
    + exact Hc.
Qed.

Lemma ltb_zord x y :
  (x <? y)%float = true <->
  SFnum (Prim2SF x) = true /\ SFnum (Prim2SF y) = true /\
  zord (Prim2SF x) < zord (Prim2SF y).
Proof.
  rewrite ltb_spec. unfold SFltb.
  destruct (SFnum (Prim2SF x)) eqn:Nx.
  - destruct (SFnum (Prim2SF y)) eqn:Ny.
    + rewrite (SFcompare_zord _ _ Nx (Prim2SF_valid x) Ny (Prim2SF_valid y)).
      destruct (Z.compare_spec (zord (Prim2SF x)) (zord (Prim2SF y)));
        split; try discriminate; try (intros (_ & _ & H'); lia).
      intros _. repeat split. assumption.
    + destruct (Prim2SF y); try discriminate.
      destruct (Prim2SF x); split; try discriminate; intros (_ & H' & _); discriminate.
  - destruct (Prim2SF x); try discriminate.
    split; [discriminate|]. intros (H' & _); discriminate.
Qed.

(** [<] on [float64] is transitive and irreflexive, NaN included. *)
Lemma ltb_trans x y z :
  (x <? y)%float = true -> (y <? z)%float = true -> (x <? z)%float = true.
Proof.
  rewrite !ltb_zord. intros (Nx & Ny & H1) (_ & Nz & H2).
  repeat split; try assumption. lia.
Qed.

Lemma ltb_irrefl x : (x <? x)%float = false.
Proof.
  destruct (x <? x)%float eqn:H; [|reflexivity].
  apply ltb_zord in H as (_ & _ & H). lia.
Qed.

End Binary64Order.

Section Binary64Steps.

Local Open Scope Z_scope.

(** Below a canonical number greater than one unit in its last place sits
    the canonical number one such unit lower. *)
Lemma canonical_pred m e :
  canonical m e -> 1 < Zpos m ->
  exists m' e', canonical m' e' /\ sc m' e' = sc m e - 2 ^ (e + 1074).
Proof.
  intros C Hm. pose proof (digits2_bounds m) as [Lo Hi].
  assert (He : -1074 <= e) by (unfold canonical in C; lia).
  assert (Hval : sc m e - 2 ^ (e + 1074) = (Zpos m - 1) * 2 ^ (e + 1074))
    by (unfold sc; lia).
  assert (Hpm : Zpos (Pos.pred m) = Zpos m - 1) by lia.
  destruct (Z.le_gt_cases (2 ^ (Zpos (digits2_pos m) - 1)) (Zpos m - 1)) as [Hsame|Hpow].
  - (* the mantissa keeps its size *)
    exists (Pos.pred m), e. split; [|unfold sc at 1; now rewrite Hpm, Hval].
    unfold canonical in *.
    rewrite (digits2_unique (Pos.pred m) (Zpos (digits2_pos m))); [exact C|lia].
  - (* the mantissa is a power of two *)
    assert (Em : Zpos m = 2 ^ (Zpos (digits2_pos m) - 1)) by lia.
    assert (Hd1 : 1 < Zpos (digits2_pos m)).
    { destruct (Z.le_gt_cases (Zpos (digits2_pos m)) 1); [|assumption].
      replace (Zpos (digits2_pos m) - 1) with 0 in Em by lia.
      rewrite Z.pow_0_r in Em. lia. }
    destruct (Z.eq_dec e (-1074)) as [->|Hne].
    + exists (Pos.pred m), (-1074). split; [|unfold sc at 1; now rewrite Hpm, Hval].
      unfold canonical in *.
      rewrite (digits2_unique (Pos.pred m) (Zpos (digits2_pos m) - 1)); [lia|].
      rewrite Hpm. split; [|lia].
      replace (Zpos (digits2_pos m) - 1) with (Z.succ (Zpos (digits2_pos m) - 1 - 1)) in Em by lia.
      rewrite Z.pow_succ_r in Em by lia.
      assert (0 < 2 ^ (Zpos (digits2_pos m) - 1 - 1)) by (apply Z.pow_pos_nonneg; lia).
      lia.
    + assert (Hd : Zpos (digits2_pos m) = 53) by (unfold canonical in C; lia).
      rewrite Hd in Em. change (2 ^ (53 - 1)) with 4503599627370496 in Em.
      exists 9007199254740990%positive, (e - 1). split.
      * unfold canonical.
        change (Zpos (digits2_pos 9007199254740990)) with 53. lia.
      * rewrite Hval, Em. unfold sc.
        replace (e + 1074) with (Z.succ (e - 1 + 1074)) by lia.
        rewrite Z.pow_succ_r by lia. lia.
Qed.

(** A positive finite number changes when a positive number at least
    [2 ^ -52] times as large is taken away from it. *)
Lemma SFsub_changes ma ea s :
  canonical ma ea -> ea <= 971 ->
  SFpos s = true -> valid_binary s = true ->
  sc ma ea <= 2 ^ 52 * ord s ->
  SFsub prec emax (S754_finite false ma ea) s <> S754_finite false ma ea.
Proof.
  intros Ca Ea Ps Vs Hbig.
  destruct (SFpos_valid s Ps Vs) as [->|(ms & es & -> & Cs & Es)];
    [discriminate|].
  cbn [ord] in Hbig.
  assert (Hea : -1074 <= ea) by (unfold canonical in Ca; lia).
  assert (Hes : -1074 <= es) by (unfold canonical in Cs; lia).
  (* the subtrahend is at least one unit in the last place *)
  assert (Hulp : 2 ^ (ea + 1074) <= sc ms es).
  { destruct (Z.eq_dec ea (-1074)) as [->|Hne].
    - pose proof (sc_pos ms es Hes). simpl. lia.
    - pose proof (digits2_bounds ma) as [Lo _].
      assert (Hd : Zpos (digits2_pos ma) = 53) by (unfold canonical in Ca; lia).
      rewrite Hd in Lo. change (2 ^ (53 - 1)) with (2 ^ 52) in Lo.
      assert (0 < 2 ^ (ea + 1074)) by (apply Z.pow_pos_nonneg; lia).
      assert (2 ^ 52 * 2 ^ (ea + 1074) <= sc ma ea)
        by (unfold sc; apply Z.mul_le_mono_nonneg_r; lia).
      assert (0 < 2 ^ 52) by reflexivity.
      apply (Z.mul_le_mono_pos_l _ _ (2 ^ 52)); lia. }
  cbn [SFsub cond_Zopp]. change (IntDef.Z.min ea es) with (Z.min ea es).
  rewrite !shl_align_fst by lia.
  set (ez := Z.min ea es).
  assert (Hez : ez <= ea /\ ez <= es /\ -1074 <= ez) by (unfold ez; lia).
  assert (Hpz : 0 < 2 ^ (ez + 1074)) by (apply Z.pow_pos_nonneg; lia).
  assert (HA : Zpos ma * 2 ^ (ea - ez) * 2 ^ (ez + 1074) = sc ma ea).
  { unfold sc. rewrite <- Z.mul_assoc, <- Z.pow_add_r by lia.
    do 2 f_equal. lia. }
  assert (HS : Zpos ms * 2 ^ (es - ez) * 2 ^ (ez + 1074) = sc ms es).
  { unfold sc. rewrite <- Z.mul_assoc, <- Z.pow_add_r by lia.
    do 2 f_equal. lia. }
  destruct (Zpos ma * 2 ^ (ea - ez) - Zpos ms * 2 ^ (es - ez)) as [|v|v] eqn:Hv;
    cbn [binary_normalize].
  - discriminate.
  - destruct (binary_round_pos v ez ltac:(lia)) as (m' & e' & Hc & Hr & Hup).
    rewrite Hr.
    assert (Hval : sc v ez = sc ma ea - sc ms es).
    { unfold sc at 1. rewrite <- Hv, Z.mul_sub_distr_r, HA, HS. reflexivity. }
    assert (Hvpos : 0 < sc v ez) by now apply sc_pos.
    assert (Hm1 : 1 < Zpos ma).
    { destruct (Z.le_gt_cases (Zpos ma) 1); [|assumption].
      assert (Zpos ma = 1) by lia. unfold sc in Hval, Hvpos, Hulp at 1.
      unfold sc in Hulp. lia. }
    destruct (canonical_pred ma ea Ca Hm1) as (mp & ep & Cp & Hp).
    assert (Hle : sc v ez <= sc mp ep) by lia.
    specialize (Hup mp ep Cp Hle).
    assert (Hlt : sc m' e' < sc ma ea) by lia.
    destruct (Z.leb_spec e' 971) as [_|Hbig'].
    + intros [= -> ->]. lia.
    + discriminate.
  - unfold binary_round. destruct (shl_align v ez _) as [mz ez'].
    intros H. pose proof (binary_round_aux_neg (Zpos mz) ez' loc_Exact) as Hn.
    rewrite H in Hn. discriminate.
Qed.

Lemma sub_changes d s :
  (0 <? d)%float = true -> finite d = true -> (0 <? s)%float = true ->
  ord (Prim2SF d) <= 2 ^ 52 * ord (Prim2SF s) ->
  (d - s)%float <> d.
Proof.
  rewrite !ltb_0. unfold finite. intros Pd Fd Ps Hbig E.
  apply (f_equal Prim2SF) in E. rewrite sub_spec in E.
  destruct (SFpos_valid _ Pd (Prim2SF_valid d)) as [Ed|(m & e & Ed & C & Ee)];
    rewrite Ed in *; [discriminate|].
  cbn [ord] in Hbig.
  exact (SFsub_changes m e _ C Ee Ps (Prim2SF_valid s) Hbig E).
Qed.

(** A positive number whose position is below the one of a finite number
    is finite. *)
Lemma finite_below d R :
  (0 <? d)%float = true -> (0 <? R)%float = true -> finite R = true ->
  ord (Prim2SF d) <= ord (Prim2SF R) -> finite d = true.
Proof.
  rewrite !ltb_0. unfold finite. intros Pd PR FR Hle.
  destruct (SFpos_valid _ Pd (Prim2SF_valid d)) as [Ed|(m & e & Ed & C & Ee)];
    rewrite Ed in *; [|reflexivity].
  destruct (SFpos_valid _ PR (Prim2SF_valid R)) as [ER|(mR & eR & ER & CR & EeR)];
    rewrite ER in *; [discriminate|].
  cbn [ord] in Hle. pose proof (sc_bound _ _ CR EeR). lia.
Qed.

End Binary64Steps.

(** ** Further properties of the scanning loop *)

Section MoreScanProperties.

Variable Sscanf_TdCf : string -> option (Z * float).
Variable Sscanf_XfYf : string -> option (float * float).
Variable bitSize : float.

Hypothesis Sscanf_TdCf_T :
  forall line r, Sscanf_TdCf line = Some r -> exists rest, line = String "T" rest.
Hypothesis Sscanf_XfYf_X :
  forall line r, Sscanf_XfYf line = Some r -> exists rest, line = String "X" rest.

Local Abbreviation step := (step Sscanf_TdCf Sscanf_XfYf bitSize).
Local Abbreviation scan_lines := (scan_lines Sscanf_TdCf Sscanf_XfYf bitSize).
Local Abbreviation parse := (parse Sscanf_TdCf Sscanf_XfYf bitSize).
Local Abbreviation main := (main Sscanf_TdCf Sscanf_XfYf bitSize).
Local Abbreviation offending := (offending Sscanf_TdCf bitSize).
Local Abbreviation is_coordinate := (is_coordinate Sscanf_XfYf).
Local Abbreviation junk := (junk Sscanf_TdCf Sscanf_XfYf).

Lemma scan_lines_app l1 : forall l2 st,
  scan_lines st (l1 ++ l2) =
  match scan_lines st l1 with
  | Done st1 => scan_lines st1 l2
  | Fatal l => Fatal l
  end.
Proof.
  induction l1 as [|line rest IH]; simpl; intros l2 st; [reflexivity|].
  destruct (step st line); [apply IH | reflexivity].
Qed.

(** A line is fatal or not whatever the state it is met in. *)
Lemma step_offending st line :
  (offending line = true -> step st line = Fatal line) /\
  (offending line = false -> exists st', step st line = Done st').
Proof.
  unfold Lines.offending, Drl.step.
  destruct (Sscanf_TdCf line) as [[tool p]|] eqn:HT.
  - destruct (Sscanf_TdCf_T _ _ HT) as [rest ->]. simpl String.eqb.
    destruct (p <? bitSize)%float; split; intros H;
      try discriminate; eauto.
  - split; [discriminate|]. intros _.
    destruct (String.eqb line "METRIC"); [eauto|].
    destruct (String.eqb line "INCH"); [eauto|].
    destruct (tools st !! line); [eauto|].
    destruct (Sscanf_XfYf line) as [[x y]|]; eauto.
Qed.

Lemma scan_lines_fatal lines : forall st l,
  scan_lines st lines = Fatal l <-> List.find offending lines = Some l.
Proof.
  induction lines as [|line rest IH]; intros st l; simpl.
  - split; discriminate.
  - destruct (step_offending st line) as [Hbad Hgood].
    destruct (Lines.offending Sscanf_TdCf bitSize line).
    + rewrite (Hbad eq_refl). split; intros [= ->]; reflexivity.
    + destruct (Hgood eq_refl) as [st' ->]. apply IH.
Qed.

(** X1.  A run is ended by [log.Fatalf] exactly when some line of the input
    matches the tool pattern with a number below the bit diameter -
    whatever precedes it, unit directives included - and the line reported
    is the first such line.  Otherwise the run reaches the drawing stage. *)
Theorem X1_fatal_iff_first_offending lines :
  (forall l, parse lines = Fatal l <-> List.find offending lines = Some l) /\
  (forall l fuel,
     main fuel lines = Some (Fatal l) <-> List.find offending lines = Some l) /\
  (List.find offending lines = None -> exists st, parse lines = Done st).
Proof.
  assert (Hparse : forall l, parse lines = Fatal l <->
                             List.find offending lines = Some l).
  { intros l. rewrite <- (scan_lines_fatal lines init l). unfold Drl.parse.
    destruct (scan_lines init lines); split; intros H; try discriminate;
      congruence. }
  split; [exact Hparse|]. split.
  - intros l fuel. rewrite <- Hparse. unfold Drl.main.
    destruct (parse lines) as [st|l'].
    + destruct (draw_holes bitSize fuel (holes st)); split; discriminate.
    + split; intros H; congruence.
  - intros Hnone. destruct (parse lines) as [st|l] eqn:Hp; [eauto|].
    destruct (Hparse l) as [H _]. rewrite (H eq_refl) in Hnone. discriminate.
Qed.

(** What one line does to the list of holes. *)
Lemma step_holes st line st' :
  reachable_inv st -> step st line = Done st' ->
  match Sscanf_XfYf line with
  | Some (x, y) =>
      holes st' = holes st ++
        [mkHole (toolRadius st) (x * factor st) (y * factor st)] /\
      factor st' = factor st
  | None => holes st' = holes st
  end.
Proof.
  intros Hinv. destruct (Sscanf_XfYf line) as [[x y]|] eqn:Hxy.
  - rewrite (step_coordinate Sscanf_TdCf Sscanf_XfYf bitSize
               Sscanf_TdCf_T Sscanf_XfYf_X _ _ _ _ Hinv Hxy).
    intros [= <-]. split; reflexivity.
  - unfold Drl.step. rewrite Hxy.
    destruct (String.eqb line "METRIC"); [now intros [= <-]|].
    destruct (String.eqb line "INCH"); [now intros [= <-]|].
    destruct (Sscanf_TdCf line) as [[tool p]|].
    { destruct (p <? bitSize)%float; [discriminate|]. now intros [= <-]. }
    destruct (tools st !! line); now intros [= <-].
Qed.

Lemma step_factor st line st' :
  step st line = Done st' ->
  factor st' = if String.eqb line "METRIC" then 1%float
               else if String.eqb line "INCH" then 25.4%float
               else factor st.
Proof.
  unfold Drl.step.
  destruct (String.eqb line "METRIC"); [now intros [= <-]|].
  destruct (String.eqb line "INCH"); [now intros [= <-]|].
  destruct (Sscanf_TdCf line) as [[tool p]|].
  { destruct (p <? bitSize)%float; [discriminate|]. now intros [= <-]. }
  destruct (tools st !! line); [now intros [= <-]|].
  destruct (Sscanf_XfYf line) as [[x y]|]; now intros [= <-].
Qed.

Lemma scan_lines_holes lines : forall st st',
  reachable_inv st ->
  (factor st = 0 \/ factor st = 1 \/ factor st = 25.4)%float ->
  scan_lines st lines = Done st' ->
  exists new,
    holes st' = holes st ++ new /\
    Forall2 (fun h line => exists x y f,
               Sscanf_XfYf line = Some (x, y) /\
               Cx h = (x * f)%float /\ Cy h = (y * f)%float /\
               (f = 0 \/ f = 1 \/ f = 25.4)%float)
      new (List.filter is_coordinate lines).
Proof.
  induction lines as [|line rest IH]; intros st st' Hinv Hf; simpl.
  - intros [= <-]. exists []. split; [now rewrite app_nil_r | constructor].
  - destruct (step st line) as [st1|] eqn:Hs; [|discriminate]. intros Hscan.
    pose proof (step_inv _ _ _ _ _ _ Hinv Hs) as Hinv1.
    pose proof (step_holes _ _ _ Hinv Hs) as Hh.
    pose proof (step_factor _ _ _ Hs) as Hf1.
    assert (Hf1' : (factor st1 = 0 \/ factor st1 = 1 \/ factor st1 = 25.4)%float).
    { rewrite Hf1. destruct (String.eqb line "METRIC"); [auto|].
      destruct (String.eqb line "INCH"); auto. }
    destruct (IH _ _ Hinv1 Hf1' Hscan) as (new & Hnew & Hall).
    unfold Lines.is_coordinate.
    destruct (Sscanf_XfYf line) as [[x y]|] eqn:Hxy.
    + destruct Hh as [Hh _]. eexists (_ :: new). split.
      * rewrite Hnew, Hh, <- app_assoc. reflexivity.
      * constructor; [|exact Hall]. exists x, y, (factor st).
        rewrite Hxy. auto.
    + exists new. split; [now rewrite Hnew, Hh | exact Hall].
Qed.

(** X2.  In a run that is not fatal, the holes are the lines that match the
    coordinate pattern, one hole per line and in the order of the file; no
    other line makes a hole.  The centre of each is the pair of numbers of
    its line times a unit factor, which is 1, 25.4, or 0 (no unit directive
    yet). *)
Theorem X2_holes_are_coordinate_lines lines st :
  parse lines = Done st ->
  Forall2 (fun h line => exists x y f,
             Sscanf_XfYf line = Some (x, y) /\
             Cx h = (x * f)%float /\ Cy h = (y * f)%float /\
             (f = 0 \/ f = 1 \/ f = 25.4)%float)
    (holes st) (List.filter is_coordinate lines).
Proof.
  unfold Drl.parse.
  destruct (scan_lines init lines) as [st0|] eqn:Hs; [|discriminate].
  intros [= <-]. simpl.
  destruct (scan_lines_holes _ _ _ (init_inv) (or_introl eq_refl) Hs)
    as (new & Hnew & Hall).
  simpl in Hnew. now rewrite Hnew.
Qed.

Lemma scan_lines_factor lines : forall st st',
  scan_lines st lines = Done st' ->
  factor st' =
  match List.find is_unit (rev lines) with
  | Some l => if String.eqb l "METRIC" then 1%float else 25.4%float
  | None => factor st
  end.
Proof.
  induction lines as [|line rest IH] using rev_ind; intros st st'.
  - now intros [= <-].
  - rewrite scan_lines_app, rev_app_distr. simpl.
    destruct (scan_lines st rest) as [st1|] eqn:Hs; [|discriminate].
    destruct (step st1 line) as [st2|] eqn:Hstep; [|discriminate].
    intros [= <-]. rewrite (step_factor _ _ _ Hstep). unfold is_unit.
    destruct (String.eqb line "METRIC") eqn:EM; simpl; [now rewrite EM|].
    destruct (String.eqb line "INCH") eqn:EI; simpl; [now rewrite EM|].
    now apply IH.
Qed.

(** X3.  After a run that is not fatal, the unit factor is the one of the
    last unit directive of the input - 1 for [METRIC], 25.4 for [INCH] -
    and it is still the zero it started with when the input has none. *)
Theorem X3_factor_of_last_unit_directive lines st :
  parse lines = Done st ->
  factor st =
  match List.find is_unit (rev lines) with
  | Some l => if String.eqb l "METRIC" then 1%float else 25.4%float
  | None => 0%float
  end.
Proof.
  unfold Drl.parse.
  destruct (scan_lines init lines) as [st0|] eqn:Hs; [|discriminate].
  intros [= <-]. simpl. exact (scan_lines_factor _ _ _ Hs).
Qed.

Lemma step_junk st line :
  reachable_inv st -> junk line -> step st line = Done st.
Proof.
  intros [Hk _ _] (Hu & HT & HX & Hn). unfold is_unit in Hu.
  apply orb_false_elim in Hu as [HM HI].
  unfold Drl.step. rewrite HM, HI, HT, HX.
  destruct (tools st !! line) as [d|] eqn:Hl; [|reflexivity].
  destruct (Hk line) as [n ->]; [now exists d|]. now destruct (Hn n).
Qed.

(** X4.  A line that is no unit directive, matches neither pattern and has
    not the form ["T"] followed by an integer can be taken out of the input,
    wherever it stands, without any effect on the run: same fatal line, or
    same calls on the canvas. *)
Theorem X4_junk_line_has_no_effect l1 line l2 :
  junk line ->
  parse (l1 ++ line :: l2) = parse (l1 ++ l2) /\
  forall fuel, main fuel (l1 ++ line :: l2) = main fuel (l1 ++ l2).
Proof.
  intros Hj.
  assert (Hp : parse (l1 ++ line :: l2) = parse (l1 ++ l2)).
  { unfold Drl.parse. rewrite !scan_lines_app.
    destruct (scan_lines init l1) as [st1|] eqn:Hs; [|reflexivity].
    simpl. rewrite step_junk; [reflexivity| |exact Hj].
    eapply scan_lines_inv; [apply init_inv | exact Hs]. }
  split; [exact Hp|]. intros fuel. unfold Drl.main. now rewrite Hp.
Qed.

Lemma Sprint_T_inj n m : Sprint_T n = Sprint_T m -> n = m.
Proof. unfold Sprint_T. simpl. intros [= H]. now apply (inj pretty). Qed.

Lemma step_tools st line st' :
  step st line = Done st' ->
  match Sscanf_TdCf line with
  | Some (tool, p) =>
      tools st' = <[Sprint_T tool := (p * factor st)%float]> (tools st) /\
      factor st' = factor st
  | None => tools st' = tools st
  end.
Proof.
  destruct (Sscanf_TdCf line) as [[tool p]|] eqn:HT.
  - destruct (Sscanf_TdCf_T _ _ HT) as [rest ->].
    unfold Drl.step. simpl String.eqb. rewrite HT.
    destruct (p <? bitSize)%float; [discriminate|]. now intros [= <-].
  - unfold Drl.step. rewrite HT.
    destruct (String.eqb line "METRIC"); [now intros [= <-]|].
    destruct (String.eqb line "INCH"); [now intros [= <-]|].
    destruct (tools st !! line); [now intros [= <-]|].
    destruct (Sscanf_XfYf line) as [[x y]|]; now intros [= <-].
Qed.

Lemma scan_lines_tools_other m lines : forall st st',
  scan_lines st lines = Done st' ->
  Forall (fun l => forall q, Sscanf_TdCf l <> Some (m, q)) lines ->
  tools st' !! Sprint_T m = tools st !! Sprint_T m.
Proof.
  induction lines as [|line rest IH]; intros st st'; simpl.
  - now intros [= <-].
  - destruct (step st line) as [st1|] eqn:Hs; [|discriminate].
    intros Hscan Hall. inversion Hall as [|? ? Hline Hrest]; subst.
    rewrite (IH _ _ Hscan Hrest).
    pose proof (step_tools _ _ _ Hs) as Ht.
    destruct (Sscanf_TdCf line) as [[tool p]|]; [|now rewrite Ht].
    destruct Ht as [-> _]. apply lookup_insert_ne.
    intros E. apply Sprint_T_inj in E as ->. now apply (Hline p).
Qed.

(** X5.  Tool numbers do not collide in the table: the entry of tool [m]
    is left as it is by every line that is not a definition of tool [m]
    itself.  After an accepted definition of [m], and as long as [m] is not
    defined again, its entry is the number of that line times the unit
    factor in force at that line, even if the unit changes later. *)
Theorem X5_tool_entry_changed_only_by_its_definitions m lines st st' :
  scan_lines st lines = Done st' ->
  (Forall (fun l => forall q, Sscanf_TdCf l <> Some (m, q)) lines ->
   tools st' !! Sprint_T m = tools st !! Sprint_T m) /\
  (forall line rest p,
     lines = line :: rest -> Sscanf_TdCf line = Some (m, p) ->
     Forall (fun l => forall q, Sscanf_TdCf l <> Some (m, q)) rest ->
     tools st' !! Sprint_T m = Some (p * factor st)%float).
Proof.
  intros Hscan. split; [now apply scan_lines_tools_other|].
  intros line rest p -> HT Hrest. simpl in Hscan.
  destruct (step st line) as [st1|] eqn:Hs; [|discriminate].
  rewrite (scan_lines_tools_other _ _ _ _ Hscan Hrest).
  pose proof (step_tools _ _ _ Hs) as Ht. rewrite HT in Ht.
  destruct Ht as [-> _]. apply lookup_insert_eq.
Qed.

(** The two updates of lines 88-99: keep the smaller, keep the larger. *)
Lemma lower_keeps first x l y :
  first = false -> (y <? l)%float = false ->
  (y <? (if first || (x <? l)%float then x else l))%float = false.
Proof.
  intros -> Hy. simpl. destruct (x <? l)%float eqn:Hx; [|exact Hy].
  destruct (y <? x)%float eqn:Hyx; [|reflexivity].
  now rewrite (ltb_trans _ _ _ Hyx Hx) in Hy.
Qed.

Lemma lower_new first x l :
  (x <? (if first || (x <? l)%float then x else l))%float = false.
Proof.
  destruct first; simpl; [apply ltb_irrefl|].
  destruct (x <? l)%float eqn:Hx; [apply ltb_irrefl | exact Hx].
Qed.

Lemma upper_keeps first x r y :
  first = false -> (r <? y)%float = false ->
  ((if first || (r <? x)%float then x else r) <? y)%float = false.
Proof.
  intros -> Hy. simpl. destruct (r <? x)%float eqn:Hx; [|exact Hy].
  destruct (x <? y)%float eqn:Hxy; [|reflexivity].
  now rewrite (ltb_trans _ _ _ Hx Hxy) in Hy.
Qed.

Lemma upper_new first x r :
  ((if first || (r <? x)%float then x else r) <? x)%float = false.
Proof.
  destruct first; simpl; [apply ltb_irrefl|].
  destruct (r <? x)%float eqn:Hx; [apply ltb_irrefl | exact Hx].
Qed.

Lemma extent_rev_covers hs :
  forall h, In h hs ->
    (hole_left h <? fst (fst (fst (extent_rev hs))))%float = false /\
    (snd (fst (fst (extent_rev hs))) <? hole_right h)%float = false /\
    (hole_top h <? snd (fst (extent_rev hs)))%float = false /\
    (snd (extent_rev hs) <? hole_bottom h)%float = false.
Proof.
  induction hs as [|h0 older IH]; intros h Hin; [destruct Hin|].
  simpl. destruct (extent_rev older) as [[[l r] t] b] eqn:He.
  unfold add_hole. cbn [fst snd].
  fold (hole_left h0) (hole_right h0) (hole_top h0) (hole_bottom h0).
  destruct Hin as [<-|Hin].
  - repeat split;
      [apply lower_new | apply upper_new | apply lower_new | apply upper_new].
  - assert (Hfirst : Nat.eqb (length older) 0 = false)
      by (destruct older; [destruct Hin | reflexivity]).
    destruct (IH h Hin) as (Hl & Hr & Ht & Hb). cbn [fst snd] in *.
    repeat split;
      [apply lower_keeps | apply upper_keeps | apply lower_keeps
       | apply upper_keeps]; assumption.
Qed.

Lemma extent_rev_attained hs :
  hs <> [] ->
  (exists h, In h hs /\ fst (fst (fst (extent_rev hs))) = hole_left h) /\
  (exists h, In h hs /\ snd (fst (fst (extent_rev hs))) = hole_right h) /\
  (exists h, In h hs /\ snd (fst (extent_rev hs)) = hole_top h) /\
  (exists h, In h hs /\ snd (extent_rev hs) = hole_bottom h).
Proof.
  induction hs as [|h0 older IH]; intros Hne; [congruence|].
  simpl. destruct (extent_rev older) as [[[l r] t] b] eqn:He.
  unfold add_hole. cbn [fst snd].
  fold (hole_left h0) (hole_right h0) (hole_top h0) (hole_bottom h0).
  destruct older as [|h1 older'].
  - simpl. repeat split; exists h0; (split; [now left | reflexivity]).
  - destruct IH as ((hl & Il & El) & (hr & Ir & Er) & (ht & It & Et) & (hb & Ib & Eb));
      [discriminate|].
    cbn [fst snd] in *. change (Nat.eqb (length (h1 :: older')) 0) with false.
    cbn [orb].
    repeat split.
    + destruct (hole_left h0 <? l)%float;
        [exists h0; split; [now left|reflexivity] | exists hl; split; [now right|exact El]].
    + destruct (r <? hole_right h0)%float;
        [exists h0; split; [now left|reflexivity] | exists hr; split; [now right|exact Er]].
    + destruct (hole_top h0 <? t)%float;
        [exists h0; split; [now left|reflexivity] | exists ht; split; [now right|exact Et]].
    + destruct (b <? hole_bottom h0)%float;
        [exists h0; split; [now left|reflexivity] | exists hb; split; [now right|exact Eb]].
Qed.

(** When the product is rounded before [toolRadius] is subtracted or
    added, as [Drl.step] has it, the four edges bound every hole as its
    record has it, and each edge is the reach of some hole.  A build that
    fuses does not keep this: see [fused_edge_inside_hole]. *)
Lemma rounded_edges_bound_holes lines st :
  scan_lines init lines = Done st ->
  (forall h, In h (holes st) ->
     (hole_left h <? leftEdge st)%float = false /\
     (rightEdge st <? hole_right h)%float = false /\
     (hole_top h <? topEdge st)%float = false /\
     (bottomEdge st <? hole_bottom h)%float = false) /\
  (holes st <> [] ->
     (exists h, In h (holes st) /\ leftEdge st = hole_left h) /\
     (exists h, In h (holes st) /\ rightEdge st = hole_right h) /\
     (exists h, In h (holes st) /\ topEdge st = hole_top h) /\
     (exists h, In h (holes st) /\ bottomEdge st = hole_bottom h)).
Proof.
  intros Hs.
  assert (Hinv : reachable_inv st)
    by (eapply scan_lines_inv; [apply init_inv | exact Hs]).
  destruct Hinv as [_ He _]. unfold edges, extent_of in He.
  assert (El : leftEdge st = fst (fst (fst (extent_rev (rev (holes st))))))
    by now rewrite <- He.
  assert (Er : rightEdge st = snd (fst (fst (extent_rev (rev (holes st))))))
    by now rewrite <- He.
  assert (Et : topEdge st = snd (fst (extent_rev (rev (holes st)))))
    by now rewrite <- He.
  assert (Eb : bottomEdge st = snd (extent_rev (rev (holes st))))
    by now rewrite <- He.
  rewrite El, Er, Et, Eb. split.
  - intros h Hin. apply extent_rev_covers. now apply in_rev in Hin.
  - intros Hne.
    destruct (extent_rev_attained (rev (holes st))) as (Hl & Hr & Ht & Hb).
    { intros E. apply Hne. now rewrite <- (rev_involutive (holes st)), E. }
    repeat split;
      [destruct Hl as (h & Hin & E) | destruct Hr as (h & Hin & E)
       | destruct Ht as (h & Hin & E) | destruct Hb as (h & Hin & E)];
      exists h; (split; [now apply in_rev | exact E]).
Qed.

Lemma step_max_bounds st line st' :
  (forall k d, tools st !! k = Some d -> (maxToolDiameter st <? d)%float = false) ->
  step st line = Done st' ->
  forall k d, tools st' !! k = Some d -> (maxToolDiameter st' <? d)%float = false.
Proof.
  intros Hb. unfold Drl.step.
  destruct (String.eqb line "METRIC"); [now intros [= <-]|].
  destruct (String.eqb line "INCH"); [now intros [= <-]|].
  destruct (Sscanf_TdCf line) as [[tool p]|].
  - destruct (p <? bitSize)%float; [discriminate|].
    intros [= <-] k d. simpl.
    destruct (decide (Sprint_T tool = k)) as [<-|Hne].
    + rewrite lookup_insert_eq. intros [= <-].
      destruct (Nat.eqb (size (tools st)) 0); simpl; [apply ltb_irrefl|].
      destruct (maxToolDiameter st <? p * factor st)%float eqn:Hlt;
        [apply ltb_irrefl | exact Hlt].
    + rewrite lookup_insert_ne by exact Hne. intros Hk.
      destruct (Nat.eqb (size (tools st)) 0) eqn:Hsz; simpl.
      * apply Nat.eqb_eq, map_size_empty_iff in Hsz.
        rewrite Hsz, lookup_empty in Hk. discriminate.
      * destruct (maxToolDiameter st <? p * factor st)%float eqn:Hlt;
          [|now apply (Hb k)].
        destruct (p * factor st <? d)%float eqn:Hd; [|reflexivity].
        rewrite <- (Hb k d Hk). symmetry. exact (ltb_trans _ _ _ Hlt Hd).
  - destruct (tools st !! line); [now intros [= <-]|].
    destruct (Sscanf_XfYf line) as [[x y]|]; now intros [= <-].
Qed.

(** X7.  [maxToolDiameter], the margin put around the drawing, is never
    below a diameter of the tool table: no entry of the table is greater. *)
Theorem X7_max_diameter_bounds_table lines st :
  scan_lines init lines = Done st ->
  forall k d, tools st !! k = Some d -> (maxToolDiameter st <? d)%float = false.
Proof.
  assert (Hgen : forall ls st0 st1,
    (forall k d, tools st0 !! k = Some d ->
                 (maxToolDiameter st0 <? d)%float = false) ->
    scan_lines st0 ls = Done st1 ->
    forall k d, tools st1 !! k = Some d ->
                (maxToolDiameter st1 <? d)%float = false).
  { induction ls as [|line rest IH]; intros st0 st1 Hb; simpl.
    - now intros [= <-].
    - destruct (step st0 line) as [st'|] eqn:Hs; [|discriminate].
      apply IH. eapply step_max_bounds; eassumption. }
  apply Hgen. intros k d Hk. simpl in Hk. rewrite lookup_empty in Hk. discriminate.
Qed.

End MoreScanProperties.

(** ** Further properties of the circle loops *)

Section MoreLoopProperties.

Variable bitSize : float.

Local Abbreviation step_size := (0.45 * bitSize)%float.
Local Abbreviation radii_loop := (radii_loop bitSize).
Local Abbreviation draw_hole := (draw_hole bitSize).
Local Abbreviation draw_holes := (draw_holes bitSize).

(** On the way to the exit of the loop, [dr] never gets above the radius
    it started from. *)
Lemma dr_at_below_start s R n :
  (forall k, (k < n)%nat -> (0 <? dr_at s R k)%float = true) ->
  (0 <? dr_at s R n)%float = false ->
  forall k, (k < n)%nat ->
    (ord (Prim2SF (dr_at s R k)) <= ord (Prim2SF R))%Z.
Proof.
  intros Hpos Hend k. induction k as [|k IH]; intros Hk; [simpl; lia|].
  pose proof (dr_at_decreases s R n Hpos Hend k Hk) as Hlt.
  rewrite ltb_ord in Hlt by (apply Hpos; lia).
  apply Z.ltb_lt in Hlt. specialize (IH ltac:(lia)). lia.
Qed.

(** Every circle of a hole has its centre and a positive radius that is
    not above its cut radius. *)
Lemma draw_hole_circles fuel h cs :
  draw_hole fuel h = Some cs ->
  Forall (fun c => exists r, c = Circle (Cx h) (Cy h) r /\
                             (0 <? r)%float = true /\
                             (Radius h <? r)%float = false) cs.
Proof.
  unfold Drl.draw_hole.
  destruct (radii_loop fuel (Radius h) []) as [radii|] eqn:Hloop; [|discriminate].
  intros [= <-]. rewrite circles_from_rev.
  destruct (radii_loop_Some _ _ _ _ _ Hloop) as (n & _ & Hpos & Hend & ->).
  simpl. apply Forall_forall. intros c Hc.
  apply list_elem_of_In, in_map_iff in Hc as (r & <- & Hr).
  apply in_rev, in_map_iff in Hr as (k & <- & Hk).
  apply in_seq in Hk. exists (dr_at step_size (Radius h) k).
  split; [reflexivity|]. split; [apply Hpos; lia|].
  rewrite ltb_ord; [|apply (Hpos 0%nat); lia|apply Hpos; lia].
  apply Z.ltb_ge. apply (dr_at_below_start _ _ n); auto; lia.
Qed.

(** X8.  A hole whose loop ends is drawn with circles that all have the
    centre of the hole and a radius that is positive and not greater than
    the cut radius of the hole; the last, outermost circle has exactly the
    cut radius.  A hole whose cut radius is not positive gets no circle. *)
Theorem X8_circles_stay_inside_the_hole fuel h cs :
  draw_hole fuel h = Some cs ->
  Forall (fun c => exists r, c = Circle (Cx h) (Cy h) r /\
                             (0 <? r)%float = true /\
                             (Radius h <? r)%float = false) cs /\
  ((0 <? Radius h)%float = true ->
     exists inner, cs = inner ++ [Circle (Cx h) (Cy h) (Radius h)]) /\
  ((0 <? Radius h)%float = false -> cs = []).
Proof.
  intros Hd. split; [now apply (draw_hole_circles fuel)|]. revert Hd.
  unfold Drl.draw_hole.
  destruct (radii_loop fuel (Radius h) []) as [radii|] eqn:Hloop; [|discriminate].
  intros [= <-]. rewrite circles_from_rev.
  destruct (radii_loop_Some _ _ _ _ _ Hloop) as (n & _ & Hpos & Hend & ->).
  simpl. split.
  - intros HR. destruct n as [|n]; [simpl in Hend; congruence|].
    simpl. rewrite map_app. simpl. eauto.
  - intros HR. destruct n as [|n]; [reflexivity|].
    pose proof (Hpos 0%nat ltac:(lia)) as H0. simpl in H0. congruence.
Qed.

(** The same for the circles of all holes. *)
Lemma draw_holes_circles fuel hs : forall cs,
  draw_holes fuel hs = Some cs ->
  Forall (fun c => exists h r, In h hs /\ c = Circle (Cx h) (Cy h) r /\
                               (0 <? r)%float = true /\
                               (Radius h <? r)%float = false) cs.
Proof.
  induction hs as [|h rest IH]; simpl; intros cs.
  - intros [= <-]. constructor.
  - destruct (draw_hole fuel h) as [ch|] eqn:Hh; [|discriminate].
    destruct (draw_holes fuel rest) as [cs'|] eqn:Hr; [|discriminate].
    intros [= <-]. apply Forall_app. split.
    + eapply Forall_impl; [exact (draw_hole_circles _ _ _ Hh)|].
      intros c (r & -> & H1 & H2). exists h, r. auto.
    + eapply Forall_impl; [exact (IH _ eq_refl)|].
      intros c (h' & r & Hin & -> & H1 & H2). exists h', r. auto.
Qed.

(** The position of [dr] goes down along the rounds of a positive step. *)
Lemma dr_at_ord_le s R k :
  (0 <? s)%float = true ->
  (forall j, (j <= k)%nat -> (0 <? dr_at s R j)%float = true) ->
  (ord (Prim2SF (dr_at s R k)) <= ord (Prim2SF R))%Z.
Proof.
  intros Hs. induction k as [|k IH]; intros Hpos; [simpl; lia|].
  specialize (IH ltac:(intros j Hj; apply Hpos; lia)).
  pose proof (sub_le (dr_at s R k) s (Hpos k ltac:(lia)) Hs (Hpos (S k) ltac:(lia))).
  simpl in *. lia.
Qed.

Lemma moderate_radius_loop_ends R :
  (0 <? bitSize)%float = true -> finite R = true ->
  (ord (Prim2SF R) <= 2 ^ 52 * ord (Prim2SF step_size))%Z ->
  exists fuel l, radii_loop fuel R [] = Some l.
Proof.
  intros HB HF Hbig.
  destruct (0 <? R)%float eqn:HR;
    [|exists 1%nat, []; simpl; now rewrite HR].
  assert (Hs : (0 <? step_size)%float = true).
  { destruct (mul_pos 0.45 bitSize eq_refl HB) as [Hz|Hs]; [|exact Hs].
    rewrite Hz in Hbig. pose proof (ord_pos _ HR).
    change (ord (Prim2SF 0)) with 0%Z in Hbig. lia. }
  apply positive_bit_loop_ends; [exact HB|].
  intros k Hpos. simpl.
  pose proof (dr_at_ord_le _ R k Hs Hpos) as Hle.
  apply sub_changes; [apply Hpos; lia| |exact Hs|lia].
  apply (finite_below _ R); auto; apply Hpos; lia.
Qed.

End MoreLoopProperties.

(** X10.  With a positive bit diameter the circle loop ends for every
    finite cut radius that is at most [2 ^ 52] times the step
    [0.45 * bitSize] (as exact values; [ord] counts them in units of
    [2 ^ -1074]).  With the default bit diameter 0.7 it ends for every
    radius below [2 ^ 50] mm. *)
Theorem X10_loop_ends_for_moderate_radius :
  (forall bitSize R,
     (0 <? bitSize)%float = true -> finite R = true ->
     (ord (Prim2SF R) <= 2 ^ 52 * ord (Prim2SF (0.45 * bitSize)%float))%Z ->
     exists fuel l, radii_loop bitSize fuel R [] = Some l) /\
  (forall R, (R <? 1125899906842624)%float = true ->
     exists fuel l, radii_loop 0.7 fuel R [] = Some l).
Proof.
  split; [exact moderate_radius_loop_ends|].
  intros R HR.
  destruct (0 <? R)%float eqn:HR0;
    [|exists 1%nat, []; simpl; now rewrite HR0].
  pose proof HR as Hlt. rewrite ltb_ord in Hlt by (assumption || reflexivity).
  apply Z.ltb_lt in Hlt.
  assert (HF : finite R = true).
  { apply (finite_below R 1125899906842624%float); auto; try reflexivity. lia. }
  apply moderate_radius_loop_ends; [reflexivity|exact HF|].
  change (ord (Prim2SF 1125899906842624)) with (2 ^ 50 * 2 ^ 1074)%Z in Hlt.
  assert (2 ^ 50 * 2 ^ 1074 <= 2 ^ 52 * ord (Prim2SF (0.45 * 0.7)%float))%Z
    by (vm_compute; discriminate).
  lia.
Qed.

(** ** The circles of all holes *)

Section ConcentricCircles.

Variable Sscanf_TdCf : string -> option (Z * float).
Variable Sscanf_XfYf : string -> option (float * float).
Variable bitSize : float.

Local Abbreviation step_size := (0.45 * bitSize)%float.
Local Abbreviation radii_loop := (radii_loop bitSize).
Local Abbreviation draw_hole := (draw_hole bitSize).
Local Abbreviation draw_holes := (draw_holes bitSize).
Local Abbreviation parse := (parse Sscanf_TdCf Sscanf_XfYf bitSize).
Local Abbreviation main := (main Sscanf_TdCf Sscanf_XfYf bitSize).






End ConcentricCircles.

(** ** Further properties of the whole program *)

Section MoreWholeProgram.

Variable Sscanf_TdCf : string -> option (Z * float).
Variable Sscanf_XfYf : string -> option (float * float).
Variable bitSize : float.

Local Abbreviation step := (step Sscanf_TdCf Sscanf_XfYf bitSize).
Local Abbreviation scan_lines := (scan_lines Sscanf_TdCf Sscanf_XfYf bitSize).
Local Abbreviation parse := (parse Sscanf_TdCf Sscanf_XfYf bitSize).
Local Abbreviation main := (main Sscanf_TdCf Sscanf_XfYf bitSize).

(** X9.  The calls of a run that reaches its end are one [StartviewUnit]
    in millimetres, then circles only, then one [End]; every circle has the
    centre of a hole found by the scanning loop and a radius that is
    positive and not greater than the cut radius of that hole. *)
Theorem X9_output_is_view_circles_end fuel lines calls :
  main fuel lines = Some (Done calls) ->
  exists st cs,
    parse lines = Done st /\
    calls = startview st :: cs ++ [End] /\
    (exists w h x y, startview st = StartviewUnit w h "mm" x y w h) /\
    Forall (fun c => exists h r, In h (holes st) /\
                                 c = Circle (Cx h) (Cy h) r /\
                                 (0 <? r)%float = true /\
                                 (Radius h <? r)%float = false) cs.
Proof.
  unfold Drl.main. destruct (parse lines) as [st|l]; [|discriminate].
  destruct (draw_holes bitSize fuel (holes st)) as [cs|] eqn:Hd; [|discriminate].
  intros [= <-]. exists st, cs. split; [reflexivity|]. split; [reflexivity|].
  split; [unfold startview; eauto|]. now apply (draw_holes_circles bitSize fuel).
Qed.

(** A loop that ends within some fuel ends within any larger fuel. *)
Lemma radii_loop_more_fuel fuel fuel' R acc l :
  radii_loop bitSize fuel R acc = Some l -> (fuel <= fuel')%nat ->
  radii_loop bitSize fuel' R acc = Some l.
Proof.
  intros H Hle.
  destruct (radii_loop_Some _ _ _ _ _ H) as (n & Hn & Hpos & Hend & ->).
  apply radii_loop_exit; auto. lia.
Qed.

Lemma draw_holes_ends hs :
  (forall h, In h hs -> exists fuel l, radii_loop bitSize fuel (Radius h) [] = Some l) ->
  exists fuel, forall fuel', (fuel <= fuel')%nat ->
    exists cs, draw_holes bitSize fuel' hs = Some cs.
Proof.
  induction hs as [|h rest IH]; intros Hall.
  - exists 0%nat. intros fuel' _. now exists [].
  - destruct (Hall h (or_introl eq_refl)) as (f1 & l & Hl).
    destruct IH as (f2 & Hrest); [intros h' Hin; apply Hall; now right|].
    exists (Nat.max f1 f2). intros fuel' Hle.
    destruct (Hrest fuel' ltac:(lia)) as (cs & Hcs).
    simpl. unfold draw_hole.
    rewrite (radii_loop_more_fuel f1 fuel' _ _ _ Hl ltac:(lia)), Hcs. eauto.
Qed.

(** X11.  With a positive bit diameter, a run ends whenever every hole has
    a finite cut radius of at most [2 ^ 52] times the step
    [0.45 * bitSize]: it is fatal, or it reaches [canvas.End()]. *)
Theorem X11_run_ends_for_moderate_radii lines :
  (0 <? bitSize)%float = true ->
  (forall st h, parse lines = Done st -> In h (holes st) ->
     finite (Radius h) = true /\
     (ord (Prim2SF (Radius h)) <=
      2 ^ 52 * ord (Prim2SF (0.45 * bitSize)%float))%Z) ->
  exists fuel r, main fuel lines = Some r.
Proof.
  intros HB Hmod. unfold Drl.main.
  destruct (parse lines) as [st|l]; [|exists 0%nat; eauto].
  destruct (draw_holes_ends (holes st)) as (fuel & Hf).
  { intros h Hin. destruct (Hmod st h eq_refl Hin) as [HF Hbig].
    now apply moderate_radius_loop_ends. }
  destruct (Hf fuel (Nat.le_refl _)) as (cs & Hcs).
  exists fuel. rewrite Hcs. eauto.
Qed.

End MoreWholeProgram.

(** ** The edges in every build *)

Section EdgesInEveryBuild.

Variable Sscanf_TdCf : string -> option (Z * float).
Variable Sscanf_XfYf : string -> option (float * float).
Variable bitSize : float.
Variable left_of right_of top_of bottom_of : float -> float -> float -> float.

Hypothesis Sscanf_TdCf_T :
  forall line r, Sscanf_TdCf line = Some r -> exists rest, line = String "T" rest.
Hypothesis Sscanf_XfYf_X :
  forall line r, Sscanf_XfYf line = Some r -> exists rest, line = String "X" rest.

Local Abbreviation step := (step Sscanf_TdCf Sscanf_XfYf bitSize).
Local Abbreviation scan_lines := (scan_lines Sscanf_TdCf Sscanf_XfYf bitSize).
Local Abbreviation fstep :=
  (Fusing.step Sscanf_TdCf Sscanf_XfYf bitSize
     left_of right_of top_of bottom_of).
Local Abbreviation fscan :=
  (Fusing.scan_lines Sscanf_TdCf Sscanf_XfYf bitSize
     left_of right_of top_of bottom_of).
Local Abbreviation at_line :=
  (Fusing.at_line left_of right_of top_of bottom_of).
Local Abbreviation computed :=
  (Fusing.computed Sscanf_TdCf Sscanf_XfYf bitSize
     left_of right_of top_of bottom_of).

(** A step of any build and a step of [Drl.step] differ in the edges
    only. *)
Lemma fstep_core st1 st2 line :
  core st1 = core st2 ->
  match fstep st1 line, step st2 line with
  | Done a, Done b => core a = core b
  | Fatal l1, Fatal l2 => l1 = l2
  | _, _ => False
  end.
Proof.
  unfold core. intros [= Ht Hh Hr Hm Hf].
  unfold Fusing.step, Drl.step. rewrite Ht, Hh, Hr, Hm, Hf.
  destruct (String.eqb line "METRIC"); [reflexivity|].
  destruct (String.eqb line "INCH"); [reflexivity|].
  destruct (Sscanf_TdCf line) as [[tool p]|].
  { destruct (p <? bitSize)%float; reflexivity. }
  destruct (tools st2 !! line); [reflexivity|].
  destruct (Sscanf_XfYf line) as [[x y]|]; [reflexivity|].
  unfold core. now rewrite Ht, Hh, Hr, Hm, Hf.
Qed.

Lemma fscan_core lines : forall st1 st2,
  core st1 = core st2 ->
  match fscan st1 lines, scan_lines st2 lines with
  | Done a, Done b => core a = core b
  | Fatal l1, Fatal l2 => l1 = l2
  | _, _ => False
  end.
Proof.
  induction lines as [|line rest IH]; intros st1 st2 Hc; simpl; [exact Hc|].
  pose proof (fstep_core st1 st2 line Hc) as H.
  destruct (fstep st1 line) as [a|l1], (step st2 line) as [b|l2];
    try contradiction; [now apply IH | exact H].
Qed.

(** With the operations that round on their own the loop is [Drl.step]. *)
Lemma rounded_step st line :
  Fusing.step Sscanf_TdCf Sscanf_XfYf bitSize
    Fusing.rounded_sub Fusing.rounded_add
    Fusing.rounded_sub Fusing.rounded_add st line = step st line.
Proof. reflexivity. Qed.

Lemma fscan_app l1 : forall l2 st,
  fscan st (l1 ++ l2) =
  match fscan st l1 with
  | Done st1 => fscan st1 l2
  | Fatal l => Fatal l
  end.
Proof.
  induction l1 as [|line rest IH]; simpl; intros l2 st; [reflexivity|].
  destruct (fstep st line); [apply IH | reflexivity].
Qed.

(** What a run of any build shares with the run of [Drl.step]. *)
Lemma fscan_reachable lines st :
  fscan init lines = Done st ->
  exists st', scan_lines init lines = Done st' /\ core st = core st' /\
              reachable_inv st'.
Proof.
  intros Hs. pose proof (fscan_core lines init init eq_refl) as H.
  rewrite Hs in H.
  destruct (scan_lines init lines) as [st'|] eqn:Hd; [|contradiction].
  exists st'. split; [reflexivity|]. split; [exact H|].
  exact (scan_lines_inv _ _ _ _ _ _ init_inv Hd).
Qed.

(** A line that matches the coordinate pattern makes a hole and offers
    its four values to the edges; any other line leaves holes and edges
    alone. *)
Lemma fstep_edges lines st line st' :
  fscan init lines = Done st -> fstep st line = Done st' ->
  match Sscanf_XfYf line with
  | Some (x, y) =>
      let first := Nat.eqb (length (holes st)) 0 in
      let '(l, r, t, b) := at_line st x y in
      holes st' = holes st ++ [mkHole (toolRadius st) (x * factor st) (y * factor st)] /\
      leftEdge st' = (if first || (l <? leftEdge st)%float then l else leftEdge st) /\
      rightEdge st' = (if first || (rightEdge st <? r)%float then r else rightEdge st) /\
      topEdge st' = (if first || (t <? topEdge st)%float then t else topEdge st) /\
      bottomEdge st' = (if first || (bottomEdge st <? b)%float then b else bottomEdge st)
  | None => holes st' = holes st /\ edges st' = edges st
  end.
Proof.
  intros Hs. destruct (fscan_reachable _ _ Hs) as (st0 & _ & Hc & Hinv).
  assert (Hkeys : forall k, is_Some (tools st !! k) -> exists rest, k = String "T" rest).
  { intros k Hk. apply (key_starts_with_T st0 k Hinv).
    unfold core in Hc. injection Hc as Ht _ _ _ _. now rewrite <- Ht. }
  unfold Fusing.step, Fusing.at_line.
  destruct (Sscanf_XfYf line) as [[x y]|] eqn:HX.
  - destruct (Sscanf_XfYf_X _ _ HX) as [rest ->]. simpl String.eqb.
    destruct (Sscanf_TdCf (String "X" rest)) as [r|] eqn:HT.
    { destruct (Sscanf_TdCf_T _ _ HT) as [rest' [=]]. }
    destruct (tools st !! String "X" rest) as [d|] eqn:Hl.
    { destruct (Hkeys (String "X" rest)) as [rest' [=]]. now rewrite Hl. }
    intros [= <-]. simpl. auto.
  - destruct (String.eqb line "METRIC"); [intros [= <-]; auto|].
    destruct (String.eqb line "INCH"); [intros [= <-]; auto|].
    destruct (Sscanf_TdCf line) as [[tool p]|].
    { destruct (p <? bitSize)%float; [discriminate|]. intros [= <-]. auto. }
    destruct (tools st !! line); intros [= <-]; auto.
Qed.

(** The holes of a run only grow. *)
Lemma fscan_holes_grow l2 : forall l1 st1 st2,
  fscan init l1 = Done st1 -> fscan st1 l2 = Done st2 ->
  exists new, holes st2 = holes st1 ++ new.
Proof.
  induction l2 as [|line rest IH]; intros l1 st1 st2 H1; simpl.
  - intros [= <-]. exists []. now rewrite app_nil_r.
  - destruct (fstep st1 line) as [st'|] eqn:Hstep; [|discriminate].
    intros H2.
    assert (H1' : fscan init (l1 ++ [line]) = Done st').
    { rewrite fscan_app, H1. simpl. now rewrite Hstep. }
    destruct (IH _ _ _ H1' H2) as [new Hnew].
    pose proof (fstep_edges _ _ _ _ H1 Hstep) as Hv.
    destruct (Sscanf_XfYf line) as [[x y]|].
    + destruct Hv as (Hh & _). rewrite Hnew, Hh, <- app_assoc. eauto.
    + destruct Hv as (Hh & _). rewrite Hnew, Hh. eauto.
Qed.

(** Values were computed only if there is a hole. *)
Lemma computed_hole lines st c :
  fscan init lines = Done st -> computed lines c -> holes st <> [].
Proof.
  intros Hs (pre & line & post & stp & x & y & -> & Hp & HX & _).
  change (pre ++ line :: post) with (pre ++ [line] ++ post) in Hs.
  rewrite fscan_app, Hp, fscan_app in Hs. simpl in Hs.
  destruct (fstep stp line) as [st1|] eqn:Hstep; [|discriminate].
  pose proof (fstep_edges _ _ _ _ Hp Hstep) as Hv. rewrite HX in Hv.
  simpl in Hv. destruct Hv as (Hh & _).
  assert (H1 : fscan init (pre ++ [line]) = Done st1).
  { rewrite fscan_app, Hp. simpl. now rewrite Hstep. }
  destruct (fscan_holes_grow _ _ _ _ H1 Hs) as [new Hnew].
  rewrite Hnew, Hh. intros H. apply app_eq_nil in H as [H _].
  apply app_eq_nil in H as [_ H]. discriminate.
Qed.

(** The values computed along one more line. *)
Lemma computed_snoc lines l st c :
  fscan init lines = Done st ->
  computed (lines ++ [l]) c <->
  computed lines c \/ exists x y, Sscanf_XfYf l = Some (x, y) /\ c = at_line st x y.
Proof.
  intros Hs. split.
  - intros (pre & line & post & stp & x & y & Heq & Hp & HX & Hc).
    destruct post as [|z post _] using rev_ind.
    + apply app_inj_tail in Heq as [<- <-]. right.
      rewrite Hp in Hs. injection Hs as <-. eauto.
    + rewrite app_comm_cons, app_assoc in Heq.
      apply app_inj_tail in Heq as [-> <-]. left.
      exists pre, line, post, stp, x, y. auto.
  - intros [(pre & line & post & stp & x & y & -> & Hp & HX & Hc)
           |(x & y & HX & Hc)].
    + exists pre, line, (post ++ [l]), stp, x, y.
      rewrite <- app_assoc. auto.
    + exists lines, l, [], st, x, y. auto.
Qed.

(** X6.  In every build - one that rounds [param * factor] before it
    subtracts or adds [toolRadius], one that fuses the two, or any mix -
    the edges at the end of the scanning loop bound, in the order of
    binary64, the values [left], [right], [top] and [bottom] that lines
    88-97 computed at every coordinate line: none of them is left of
    [leftEdge], right of [rightEdge], above [topEdge] or below
    [bottomEdge].  Once there is a hole, each edge is one of these
    values. *)
Theorem X6_edges_bound_computed_values lines st :
  fscan init lines = Done st ->
  (forall l r t b, computed lines (l, r, t, b) ->
     (l <? leftEdge st)%float = false /\
     (rightEdge st <? r)%float = false /\
     (t <? topEdge st)%float = false /\
     (bottomEdge st <? b)%float = false) /\
  (holes st <> [] ->
     (exists l r t b, computed lines (l, r, t, b) /\ leftEdge st = l) /\
     (exists l r t b, computed lines (l, r, t, b) /\ rightEdge st = r) /\
     (exists l r t b, computed lines (l, r, t, b) /\ topEdge st = t) /\
     (exists l r t b, computed lines (l, r, t, b) /\ bottomEdge st = b)).
Proof.
  revert st. induction lines as [|line lines IH] using rev_ind; intros st Hs.
  { injection Hs as <-. split; [|intros H; now contradiction H].
    intros l r t b (pre & ? & ? & ? & ? & ? & Heq & _).
    now destruct pre. }
  rewrite fscan_app in Hs.
  destruct (fscan init lines) as [st0|] eqn:H0; [|discriminate].
  simpl in Hs. destruct (fstep st0 line) as [st1|] eqn:Hstep; [|discriminate].
  injection Hs as ->.
  destruct (IH st0 eq_refl) as [Hbound Hatt].
  pose proof (fstep_edges _ _ _ _ H0 Hstep) as Hv.
  destruct (Sscanf_XfYf line) as [[x y]|] eqn:HX.
  - destruct (at_line st0 x y) as [[[cl cr] ct] cb] eqn:Hc. simpl in Hv.
    destruct Hv as (Hh & Hl & Hr & Ht & Hb).
    assert (Hnew : computed (lines ++ [line]) (cl, cr, ct, cb)).
    { apply (computed_snoc _ _ _ _ H0). right. exists x, y. now rewrite Hc. }
    assert (Hold : forall c, computed lines c -> computed (lines ++ [line]) c).
    { intros c Hc'. apply (computed_snoc _ _ _ _ H0). now left. }
    split.
    + intros l r t b Hcomp. apply (computed_snoc _ _ _ _ H0) in Hcomp.
      rewrite Hl, Hr, Ht, Hb.
      destruct Hcomp as [Hcomp|(x' & y' & HX' & Hc')].
      * assert (Hfirst : Nat.eqb (length (holes st0)) 0 = false).
        { apply Nat.eqb_neq. intros Hz. apply length_zero_iff_nil in Hz.
          exact (computed_hole _ _ _ H0 Hcomp Hz). }
        destruct (Hbound _ _ _ _ Hcomp) as (B1 & B2 & B3 & B4).
        repeat split;
          [apply lower_keeps|apply upper_keeps|apply lower_keeps|apply upper_keeps];
          assumption.
      * rewrite HX' in HX. injection HX as -> ->. rewrite Hc in Hc'.
        injection Hc' as -> -> -> ->.
        repeat split; [apply lower_new|apply upper_new|apply lower_new|apply upper_new].
    + intros _.
      assert (Hcase : forall (cond : bool) (c e : float) (P : float -> Prop),
                P c -> (cond = false -> P e) -> P (if cond then c else e)).
      { intros [] ? ? ? ? ?; auto. }
      assert (Hne : (Nat.eqb (length (holes st0)) 0 = false) -> holes st0 <> []).
      { intros Hf Hz. rewrite Hz in Hf. discriminate. }
      rewrite Hl, Hr, Ht, Hb. repeat split.
      * apply (Hcase _ _ _ (fun v => exists l r t b, computed _ (l, r, t, b) /\ v = l)).
        { exists cl, cr, ct, cb. auto. }
        intros Hf. apply orb_false_iff in Hf as [Hf _].
        destruct (Hatt (Hne Hf)) as ((l & r & t & b & Hc' & He) & _).
        exists l, r, t, b. auto.
      * apply (Hcase _ _ _ (fun v => exists l r t b, computed _ (l, r, t, b) /\ v = r)).
        { exists cl, cr, ct, cb. auto. }
        intros Hf. apply orb_false_iff in Hf as [Hf _].
        destruct (Hatt (Hne Hf)) as (_ & (l & r & t & b & Hc' & He) & _).
        exists l, r, t, b. auto.
      * apply (Hcase _ _ _ (fun v => exists l r t b, computed _ (l, r, t, b) /\ v = t)).
        { exists cl, cr, ct, cb. auto. }
        intros Hf. apply orb_false_iff in Hf as [Hf _].
        destruct (Hatt (Hne Hf)) as (_ & _ & (l & r & t & b & Hc' & He) & _).
        exists l, r, t, b. auto.
      * apply (Hcase _ _ _ (fun v => exists l r t b, computed _ (l, r, t, b) /\ v = b)).
        { exists cl, cr, ct, cb. auto. }
        intros Hf. apply orb_false_iff in Hf as [Hf _].
        destruct (Hatt (Hne Hf)) as (_ & _ & _ & (l & r & t & b & Hc' & He)).
        exists l, r, t, b. auto.
  - destruct Hv as [Hh He]. unfold edges in He. injection He as Hl Hr Ht Hb.
    rewrite Hh, Hl, Hr, Ht, Hb.
    assert (Hiff : forall c, computed (lines ++ [line]) c <-> computed lines c).
    { intros c. rewrite (computed_snoc _ _ _ _ H0). split; [|now left].
      intros [H|(x & y & HX' & _)]; [exact H|]. rewrite HX in HX'. discriminate. }
    split.
    + intros l r t b Hcomp. apply Hiff in Hcomp. now apply Hbound.
    + intros Hne. destruct (Hatt Hne) as (A1 & A2 & A3 & A4).
      repeat split.
      * destruct A1 as (l & r & t & b & Hc' & He). exists l, r, t, b.
        split; [now apply Hiff|exact He].
      * destruct A2 as (l & r & t & b & Hc' & He). exists l, r, t, b.
        split; [now apply Hiff|exact He].
      * destruct A3 as (l & r & t & b & Hc' & He). exists l, r, t, b.
        split; [now apply Hiff|exact He].
      * destruct A4 as (l & r & t & b & Hc' & He). exists l, r, t, b.
        split; [now apply Hiff|exact He].
Qed.

End EdgesInEveryBuild.

(** ** Where the radius of a hole comes from *)

Section RadiusProvenance.

Variable Sscanf_TdCf : string -> option (Z * float).
Variable Sscanf_XfYf : string -> option (float * float).
Variable bitSize : float.

Hypothesis Sscanf_TdCf_T :
  forall line r, Sscanf_TdCf line = Some r -> exists rest, line = String "T" rest.
Hypothesis Sscanf_XfYf_X :
  forall line r, Sscanf_XfYf line = Some r -> exists rest, line = String "X" rest.

Local Abbreviation step := (step Sscanf_TdCf Sscanf_XfYf bitSize).
Local Abbreviation scan_lines := (scan_lines Sscanf_TdCf Sscanf_XfYf bitSize).
Local Abbreviation selects := (is_selection Sscanf_TdCf).
Local Abbreviation selection_free :=
  (selection_free Sscanf_TdCf Sscanf_XfYf bitSize).
Local Abbreviation is_coordinate := (is_coordinate Sscanf_XfYf).
Local Abbreviation defined := (defined Sscanf_TdCf Sscanf_XfYf bitSize).
Local Abbreviation selected := (selected Sscanf_TdCf Sscanf_XfYf bitSize).

(** The run over one more line. *)
Lemma scan_lines_snoc lines l st :
  scan_lines init (lines ++ [l]) = Done st ->
  exists st0, scan_lines init lines = Done st0 /\ step st0 l = Done st /\
              reachable_inv st0.
Proof.
  rewrite (scan_lines_app Sscanf_TdCf Sscanf_XfYf bitSize).
  destruct (scan_lines init lines) as [st0|] eqn:H0; [|discriminate].
  simpl. destruct (step st0 l) as [st1|] eqn:H1; [|discriminate].
  intros [= <-]. exists st0. split; [reflexivity|]. split; [exact H1|].
  exact (scan_lines_inv _ _ _ _ _ _ init_inv H0).
Qed.

Lemma selection_free_app l1 : forall l2 st,
  selection_free st (l1 ++ l2) =
  selection_free st l1 &&
  match scan_lines st l1 with
  | Done st1 => selection_free st1 l2
  | Fatal _ => true
  end.
Proof.
  induction l1 as [|line rest IH]; intros l2 st; simpl; [reflexivity|].
  destruct (step st line) as [st'|].
  - rewrite IH. now rewrite andb_assoc.
  - now rewrite !andb_true_r.
Qed.

(** A definition stays the last one of its tool over a line that defines
    no such tool. *)
Lemma defined_snoc pre l m p f :
  defined pre m p f -> (forall q, Sscanf_TdCf l <> Some (m, q)) ->
  defined (pre ++ [l]) m p f.
Proof.
  intros (pre1 & def & mid & st1 & -> & H1 & Hf & Hd & Hmid) Hl.
  exists pre1, def, (mid ++ [l]), st1. rewrite <- app_assoc. simpl.
  repeat split; auto. apply Forall_app. split; [exact Hmid|].
  constructor; [exact Hl|constructor].
Qed.

(** The last definition of a tool is what the table holds for it. *)
Lemma defined_entry pre st m p f :
  scan_lines init pre = Done st -> defined pre m p f ->
  tools st !! Sprint_T m = Some (p * f)%float.
Proof.
  intros Hs (pre1 & def & mid & st1 & -> & H1 & <- & Hd & Hmid).
  change (pre1 ++ def :: mid) with (pre1 ++ [def] ++ mid) in Hs.
  rewrite (scan_lines_app Sscanf_TdCf Sscanf_XfYf bitSize), H1 in Hs.
  simpl in Hs. destruct (step st1 def) as [st1'|] eqn:Hstep; [|discriminate].
  rewrite (scan_lines_tools_other Sscanf_TdCf Sscanf_XfYf bitSize
             Sscanf_TdCf_T m mid st1' st Hs Hmid).
  pose proof (step_tools Sscanf_TdCf Sscanf_XfYf bitSize Sscanf_TdCf_T
                _ _ _ Hstep) as Ht.
  rewrite Hd in Ht. destruct Ht as [-> _]. apply lookup_insert_eq.
Qed.

(** Every entry of the tool table was written by the last definition of
    its tool, which was not fatal. *)
Lemma table_source pre : forall st m d,
  scan_lines init pre = Done st ->
  tools st !! Sprint_T m = Some d ->
  exists p f, defined pre m p f /\ (p <? bitSize)%float = false /\
              d = (p * f)%float.
Proof.
  induction pre as [|l pre IH] using rev_ind; intros st m d Hs Hd.
  { injection Hs as <-. simpl in Hd. rewrite lookup_empty in Hd. discriminate. }
  destruct (scan_lines_snoc _ _ _ Hs) as (st0 & H0 & Hstep & Hinv).
  pose proof (step_tools Sscanf_TdCf Sscanf_XfYf bitSize Sscanf_TdCf_T
                _ _ _ Hstep) as Ht.
  destruct (Sscanf_TdCf l) as [[tool p']|] eqn:HT.
  - destruct Ht as [Ht _]. rewrite Ht in Hd.
    destruct (decide (tool = m)) as [->|Hne].
    + rewrite lookup_insert_eq in Hd. injection Hd as <-.
      exists p', (factor st0). split; [|split; [|reflexivity]].
      * exists pre, l, [], st0. repeat split; auto.
      * destruct (p' <? bitSize)%float eqn:Hp; [|reflexivity].
        apply (tool_definition_fatal_iff Sscanf_TdCf Sscanf_XfYf bitSize
                 Sscanf_TdCf_T st0 l m p' HT) in Hp.
        rewrite Hp in Hstep. discriminate.
    + rewrite lookup_insert_ne in Hd
        by (intros H; apply Sprint_T_inj in H; contradiction).
      destruct (IH _ _ _ H0 Hd) as (p & f & Hdef & Hp & ->).
      exists p, f. split; [|auto]. apply defined_snoc; [exact Hdef|].
      intros q. rewrite HT. intros [= ? ?]. contradiction.
  - rewrite Ht in Hd. destruct (IH _ _ _ H0 Hd) as (p & f & Hdef & Hp & ->).
    exists p, f. split; [|auto]. apply defined_snoc; [exact Hdef|].
    intros q. rewrite HT. discriminate.
Qed.

(** What a line that takes the selection branch does. *)
Lemma step_selection st line :
  selects st line = true ->
  exists d, tools st !! line = Some d /\
            step st line =
            Done (mkState (tools st) (holes st) ((d - bitSize) * 0.5)%float
                    (maxToolDiameter st) (factor st)
                    (leftEdge st) (rightEdge st) (topEdge st) (bottomEdge st)).
Proof.
  unfold is_selection, Drl.step.
  destruct (String.eqb line "METRIC"); [discriminate|].
  destruct (String.eqb line "INCH"); [discriminate|].
  destruct (Sscanf_TdCf line); [discriminate|].
  destruct (tools st !! line) as [d|]; [|discriminate]. eauto.
Qed.

(** The radius in force is the one of the last selection. *)
Lemma selected_radius pre st m p f :
  scan_lines init pre = Done st -> selected pre m p f ->
  toolRadius st = ((p * f - bitSize) * 0.5)%float.
Proof.
  intros Hs (pre2 & rest & st2 & st3 & -> & Hdef & H2 & Hsel & H3 & Hfree).
  change (pre2 ++ Sprint_T m :: rest) with (pre2 ++ [Sprint_T m] ++ rest) in Hs.
  rewrite (scan_lines_app Sscanf_TdCf Sscanf_XfYf bitSize), H2 in Hs.
  simpl in Hs. rewrite H3 in Hs.
  rewrite (scan_lines_no_selection _ _ _ _ _ _ Hfree Hs).
  destruct (step_selection _ _ Hsel) as (d & Hd & Hstep).
  rewrite (defined_entry _ _ _ _ _ H2 Hdef) in Hd. injection Hd as <-.
  rewrite Hstep in H3. now injection H3 as <-.
Qed.

(** After any lines, no line has selected a tool or some line was the
    last to do so, naming a tool whose definition was accepted. *)
Lemma selection_cases pre : forall st,
  scan_lines init pre = Done st ->
  selection_free init pre = true \/
  exists m p f, selected pre m p f /\ (p <? bitSize)%float = false.
Proof.
  induction pre as [|l pre IH] using rev_ind; intros st Hs.
  { now left. }
  destruct (scan_lines_snoc _ _ _ Hs) as (st0 & H0 & Hstep & Hinv).
  destruct (selects st0 l) eqn:Hsel.
  - right. destruct (step_selection _ _ Hsel) as (d & Hd & _).
    destruct (inv_keys _ Hinv l) as [m ->]; [now rewrite Hd|].
    destruct (table_source _ _ _ _ H0 Hd) as (p & f & Hdef & Hp & _).
    exists m, p, f. split; [|exact Hp].
    exists pre, [], st0, st. repeat split; auto.
  - destruct (IH _ H0) as [Hfree|(m & p & f & Hsd & Hp)].
    + left. rewrite selection_free_app, Hfree, H0. simpl.
      now rewrite Hsel, Hstep.
    + right. exists m, p, f. split; [|exact Hp].
      destruct Hsd as (pre2 & rest & st2 & st3 & -> & Hdef & H2 & Hs2 & H3 & Hfree).
      exists pre2, (rest ++ [l]), st2, st3.
      rewrite <- app_assoc. simpl. repeat split; auto.
      rewrite selection_free_app, Hfree. simpl.
      change (pre2 ++ Sprint_T m :: rest) with (pre2 ++ [Sprint_T m] ++ rest) in H0.
      rewrite (scan_lines_app Sscanf_TdCf Sscanf_XfYf bitSize), H2 in H0.
      simpl in H0. rewrite H3 in H0. rewrite H0. simpl.
      now rewrite Hsel, Hstep.
Qed.

(** The holes of a run only grow. *)
Lemma scan_lines_holes_grow lines : forall st st',
  reachable_inv st -> scan_lines st lines = Done st' ->
  exists new, holes st' = holes st ++ new.
Proof.
  induction lines as [|line rest IH]; intros st st' Hinv; simpl.
  - intros [= <-]. exists []. now rewrite app_nil_r.
  - destruct (step st line) as [st1|] eqn:Hstep; [|discriminate].
    intros Hs.
    destruct (IH _ _ (step_inv _ _ _ _ _ _ Hinv Hstep) Hs) as [new Hnew].
    pose proof (step_holes Sscanf_TdCf Sscanf_XfYf bitSize Sscanf_TdCf_T
                  Sscanf_XfYf_X _ _ _ Hinv Hstep) as Hh.
    destruct (Sscanf_XfYf line) as [[x y]|].
    + destruct Hh as [Hh _]. rewrite Hnew, Hh, <- app_assoc. eauto.
    + rewrite Hnew, Hh. eauto.
Qed.

(** X12.  The hole made by a coordinate line is the one whose number is
    the count of coordinate lines before it, and its centre is what the
    line reads times the unit factor in force.  Before that line either no
    line selected a tool, and then the cut radius of the hole is the zero
    [toolRadius] starts with; or some line was the last to select one.
    That line is the key of a tool [m], and the cut radius is
    [(p * f - bitSize) * 0.5] for the number [p] read by the last
    definition of [m] before the selection, which was accepted ([p <
    bitSize] is false), and the unit factor [f] in force at that
    definition.  Nothing else has a part in the radius: not the unit in
    force at the hole, and no definition that follows the selection. *)
Theorem X12_radius_comes_from_last_selection pre line post st x y :
  scan_lines init (pre ++ line :: post) = Done st ->
  Sscanf_XfYf line = Some (x, y) ->
  exists stp h,
    scan_lines init pre = Done stp /\
    length (holes stp) = length (List.filter is_coordinate pre) /\
    holes st !! length (holes stp) = Some h /\
    Cx h = (x * factor stp)%float /\ Cy h = (y * factor stp)%float /\
    (selection_free init pre = true \/
     exists m p f, selected pre m p f /\ (p <? bitSize)%float = false) /\
    (selection_free init pre = true -> Radius h = 0%float) /\
    (forall m p f, selected pre m p f ->
       Radius h = ((p * f - bitSize) * 0.5)%float).
Proof.
  intros Hs HX.
  change (pre ++ line :: post) with (pre ++ [line] ++ post) in Hs.
  rewrite (scan_lines_app Sscanf_TdCf Sscanf_XfYf bitSize) in Hs.
  destruct (scan_lines init pre) as [stp|] eqn:Hp; [|discriminate].
  rewrite (scan_lines_app Sscanf_TdCf Sscanf_XfYf bitSize) in Hs. simpl in Hs.
  assert (Hinv : reachable_inv stp)
    by exact (scan_lines_inv _ _ _ _ _ _ init_inv Hp).
  pose proof (step_coordinate Sscanf_TdCf Sscanf_XfYf bitSize Sscanf_TdCf_T
                Sscanf_XfYf_X _ _ _ _ Hinv HX) as Hstep.
  destruct (step stp line) as [st1|] eqn:H1; [|discriminate].
  injection Hstep as ->.
  match type of Hs with Drl.scan_lines _ _ _ ?s post = _ =>
    assert (Hinv1 : reachable_inv s)
      by exact (step_inv _ _ _ _ _ _ Hinv H1);
    destruct (scan_lines_holes_grow _ _ _ Hinv1 Hs) as [new Hnew]
  end.
  simpl in Hnew.
  exists stp, (mkHole (toolRadius stp) (x * factor stp) (y * factor stp)).
  split; [reflexivity|].
  split; [|split; [|split; [reflexivity|split; [reflexivity|split; [|split]]]]].
  - destruct (scan_lines_holes Sscanf_TdCf Sscanf_XfYf bitSize Sscanf_TdCf_T
                Sscanf_XfYf_X pre init stp init_inv (or_introl eq_refl) Hp)
      as (hs & Hhs & Hall).
    simpl in Hhs. rewrite Hhs. exact (Forall2_length _ _ _ Hall).
  - rewrite Hnew, <- app_assoc. simpl. apply list_lookup_middle. reflexivity.
  - exact (selection_cases _ _ Hp).
  - intros Hfree. simpl.
    exact (scan_lines_no_selection _ _ _ _ _ _ Hfree Hp).
  - intros m p f Hsd. simpl. exact (selected_radius _ _ _ _ _ Hp Hsd).
Qed.

End RadiusProvenance.

(** ** The further properties on concrete files *)

Lemma X1_witness :
  drl2svg_parse 0.7 ["M48"; "INCH"; "T1C0.1"; "T2C0.01"] = Fatal "T1C0.1" /\
  forall fuel,
    drl2svg 0.7 fuel ["M48"; "INCH"; "T1C0.1"; "T2C0.01"] = Some (Fatal "T1C0.1").
Proof.
  destruct (X1_fatal_iff_first_offending
              ScanModel.Sscanf_TdCf ScanModel.Sscanf_XfYf 0.7 ScanModel_TdCf_T
              ["M48"; "INCH"; "T1C0.1"; "T2C0.01"]) as (Hp & Hm & _).
  split; [|intros fuel]; [apply Hp|apply Hm]; vm_compute; reflexivity.
Defined.

Lemma X2_witness :
  exists st,
    drl2svg_parse 1 ["METRIC"; "T1C3"; "T1"; "X10Y10"; "M30"; "X20Y5"] = Done st /\
    Forall2 (fun h line => exists x y f,
               ScanModel.Sscanf_XfYf line = Some (x, y) /\
               Cx h = (x * f)%float /\ Cy h = (y * f)%float /\
               (f = 0 \/ f = 1 \/ f = 25.4)%float)
            (holes st) ["X10Y10"; "X20Y5"].
Proof.
  run_parse st Hp Hholes Hmax Hedges.
  exists st. split; [reflexivity|].
  exact (X2_holes_are_coordinate_lines
           ScanModel.Sscanf_TdCf ScanModel.Sscanf_XfYf 1
           ScanModel_TdCf_T ScanModel_XfYf_X
           ["METRIC"; "T1C3"; "T1"; "X10Y10"; "M30"; "X20Y5"] st Hp).
Defined.

Lemma X3_witness :
  exists st,
    drl2svg_parse 1 ["INCH"; "T1C3"; "METRIC"; "X10Y10"] = Done st /\
    factor st = 1%float.
Proof.
  run_parse st Hp Hholes Hmax Hedges.
  exists st. split; [reflexivity|].
  exact (X3_factor_of_last_unit_directive
           ScanModel.Sscanf_TdCf ScanModel.Sscanf_XfYf 1
           ["INCH"; "T1C3"; "METRIC"; "X10Y10"] st Hp).
Defined.

Lemma X4_witness :
  junk ScanModel.Sscanf_TdCf ScanModel.Sscanf_XfYf "M48" /\
  drl2svg_parse 0.7 (["METRIC"; "T1C3"] ++ "M48" :: ["T1"; "X10Y10"]) =
  drl2svg_parse 0.7 (["METRIC"; "T1C3"] ++ ["T1"; "X10Y10"]).
Proof.
  assert (Hj : junk ScanModel.Sscanf_TdCf ScanModel.Sscanf_XfYf "M48").
  { repeat split; try reflexivity. intros n. unfold Sprint_T. discriminate. }
  split; [exact Hj|].
  exact (proj1 (X4_junk_line_has_no_effect
                  ScanModel.Sscanf_TdCf ScanModel.Sscanf_XfYf 0.7
                  ["METRIC"; "T1C3"] "M48" ["T1"; "X10Y10"] Hj)).
Defined.

Lemma X5_witness :
  exists st',
    drl2svg_scan 0.7 (mkState ∅ [] 0 0 1 0 0 0 0) ["T1C3"; "T2C5"; "X1Y1"] = Done st' /\
    tools st' !! "T1" = Some (3 * 1)%float.
Proof.
  destruct (drl2svg_scan 0.7 (mkState ∅ [] 0 0 1 0 0 0 0) ["T1C3"; "T2C5"; "X1Y1"])
    as [st'|] eqn:Hs; [|vm_compute in Hs; discriminate].
  exists st'. split; [reflexivity|].
  refine (proj2 (X5_tool_entry_changed_only_by_its_definitions
                   ScanModel.Sscanf_TdCf ScanModel.Sscanf_XfYf 0.7 ScanModel_TdCf_T
                   1%Z ["T1C3"; "T2C5"; "X1Y1"] (mkState ∅ [] 0 0 1 0 0 0 0) st' Hs)
                "T1C3" ["T2C5"; "X1Y1"] 3%float eq_refl eq_refl _).
  repeat constructor; intros q; vm_compute; discriminate.
Defined.

(** On this file the fusing build ends with a right edge inside the only
    hole: the sum of the rounded [Cx] and the radius lies above the fused
    value the edge was given.  The build that rounds first has no such
    gap. *)
Lemma fused_edge_inside_hole :
  exists st h,
    drl2svg_scan_fused 0.01 init ["INCH"; "T1C0.01"; "T1"; "X0.017Y0.017"] = Done st /\
    holes st = [h] /\
    rightEdge st = 0.55379999999999996%float /\
    hole_right h = 0.55380000000000007%float /\
    (rightEdge st <? hole_right h)%float = true.
Proof.
  eexists _, _. split; [vm_compute; reflexivity|].
  split; [reflexivity|]. repeat split.
Qed.

Lemma X6_witness :
  exists st,
    drl2svg_scan_fused 0.01 init ["INCH"; "T1C0.01"; "T1"; "X0.017Y0.017"] = Done st /\
    (forall l r t b,
       Fusing.computed ScanModel.Sscanf_TdCf ScanModel.Sscanf_XfYf 0.01
         Fusing.fused_sub Fusing.fused_add Fusing.fused_sub Fusing.fused_add
         ["INCH"; "T1C0.01"; "T1"; "X0.017Y0.017"] (l, r, t, b) ->
       (l <? leftEdge st)%float = false /\
       (rightEdge st <? r)%float = false /\
       (t <? topEdge st)%float = false /\
       (bottomEdge st <? b)%float = false) /\
    exists st',
      drl2svg_scan 0.01 init ["INCH"; "T1C0.01"; "T1"; "X0.017Y0.017"] = Done st' /\
      (forall l r t b,
         Fusing.computed ScanModel.Sscanf_TdCf ScanModel.Sscanf_XfYf 0.01
           Fusing.rounded_sub Fusing.rounded_add
           Fusing.rounded_sub Fusing.rounded_add
           ["INCH"; "T1C0.01"; "T1"; "X0.017Y0.017"] (l, r, t, b) ->
         (l <? leftEdge st')%float = false /\
         (rightEdge st' <? r)%float = false /\
         (t <? topEdge st')%float = false /\
         (bottomEdge st' <? b)%float = false).
Proof.
  destruct (drl2svg_scan_fused 0.01 init ["INCH"; "T1C0.01"; "T1"; "X0.017Y0.017"])
    as [st|] eqn:Hs; [|vm_compute in Hs; discriminate].
  exists st. split; [reflexivity|]. split.
  { exact (proj1 (X6_edges_bound_computed_values
                    ScanModel.Sscanf_TdCf ScanModel.Sscanf_XfYf 0.01
                    Fusing.fused_sub Fusing.fused_add
                    Fusing.fused_sub Fusing.fused_add
                    ScanModel_TdCf_T ScanModel_XfYf_X
                    ["INCH"; "T1C0.01"; "T1"; "X0.017Y0.017"] st Hs)). }
  destruct (drl2svg_scan 0.01 init ["INCH"; "T1C0.01"; "T1"; "X0.017Y0.017"])
    as [st'|] eqn:Hs'; [|vm_compute in Hs'; discriminate].
  exists st'. split; [reflexivity|].
  exact (proj1 (X6_edges_bound_computed_values
                  ScanModel.Sscanf_TdCf ScanModel.Sscanf_XfYf 0.01
                  Fusing.rounded_sub Fusing.rounded_add
                  Fusing.rounded_sub Fusing.rounded_add
                  ScanModel_TdCf_T ScanModel_XfYf_X
                  ["INCH"; "T1C0.01"; "T1"; "X0.017Y0.017"] st' Hs')).
Defined.

Lemma X7_witness :
  exists st,
    drl2svg_scan 0.7 init ["METRIC"; "T1C3"; "T2C5"; "T3C1"] = Done st /\
    forall k d, tools st !! k = Some d -> (maxToolDiameter st <? d)%float = false.
Proof.
  destruct (drl2svg_scan 0.7 init ["METRIC"; "T1C3"; "T2C5"; "T3C1"])
    as [st|] eqn:Hs; [|vm_compute in Hs; discriminate].
  exists st. split; [reflexivity|].
  exact (X7_max_diameter_bounds_table
           ScanModel.Sscanf_TdCf ScanModel.Sscanf_XfYf 0.7
           ["METRIC"; "T1C3"; "T2C5"; "T3C1"] st Hs).
Defined.

Lemma X8_witness :
  exists cs,
    draw_hole 0.7 4 (mkHole 0.92 1 1) = Some cs /\
    Forall (fun c => exists r, c = Circle 1 1 r /\
                               (0 <? r)%float = true /\
                               (0.92 <? r)%float = false) cs.
Proof.
  destruct (draw_hole 0.7 4 (mkHole 0.92 1 1)) as [cs|] eqn:Hd;
    [|vm_compute in Hd; discriminate].
  exists cs. split; [reflexivity|].
  exact (proj1 (X8_circles_stay_inside_the_hole 0.7 4 (mkHole 0.92 1 1) cs Hd)).
Defined.

Lemma X9_witness :
  exists calls st cs,
    drl2svg 1 10 ["METRIC"; "T1C3"; "T1"; "X10Y10"] = Some (Done calls) /\
    drl2svg_parse 1 ["METRIC"; "T1C3"; "T1"; "X10Y10"] = Done st /\
    calls = startview st :: cs ++ [End].
Proof.
  destruct (drl2svg 1 10 ["METRIC"; "T1C3"; "T1"; "X10Y10"]) as [[calls|]|] eqn:Hm;
    try (vm_compute in Hm; discriminate).
  destruct (X9_output_is_view_circles_end
              ScanModel.Sscanf_TdCf ScanModel.Sscanf_XfYf 1 10
              ["METRIC"; "T1C3"; "T1"; "X10Y10"] calls Hm)
    as (st & cs & Hp & Hc & _).
  exists calls, st, cs. split; [reflexivity|]. split; [exact Hp|exact Hc].
Defined.

Lemma X10_witness :
  exists fuel l, radii_loop 0.7 fuel 0.92 [] = Some l.
Proof.
  apply (proj1 X10_loop_ends_for_moderate_radius 0.7 0.92)%float;
    [reflexivity | reflexivity | vm_compute; discriminate].
Defined.

Lemma X11_witness :
  exists fuel r,
    drl2svg 0.7 fuel ["METRIC"; "T1C3"; "T1"; "X10Y10"; "X20Y5"] = Some r.
Proof.
  apply (X11_run_ends_for_moderate_radii
           ScanModel.Sscanf_TdCf ScanModel.Sscanf_XfYf 0.7
           ["METRIC"; "T1C3"; "T1"; "X10Y10"; "X20Y5"]); [reflexivity|].
  intros st h Hp Hin.
  destruct (parse_view _ _ _ Hp) as (Hholes & _ & _).
  vm_compute in Hholes.
  match type of Hholes with ?v = _ => change (v = holes st) in Hholes end.
  rewrite <- Hholes in Hin.
  destruct Hin as [<-|[<-|[]]]; (split; [reflexivity | vm_compute; discriminate]).
Defined.

Lemma X12_witness :
  exists st h,
    drl2svg_scan 0.7 init
      ["INCH"; "T1C0.8"; "METRIC"; "T1"; "T1C5"; "X2Y2"] = Done st /\
    holes st !! 0%nat = Some h /\
    Radius h = ((0.8 * 25.4 - 0.7) * 0.5)%float.
Proof.
  destruct (drl2svg_scan 0.7 init
              ["INCH"; "T1C0.8"; "METRIC"; "T1"; "T1C5"; "X2Y2"])
    as [st|] eqn:Hs; [|vm_compute in Hs; discriminate].
  destruct (X12_radius_comes_from_last_selection
              ScanModel.Sscanf_TdCf ScanModel.Sscanf_XfYf 0.7
              ScanModel_TdCf_T ScanModel_XfYf_X
              ["INCH"; "T1C0.8"; "METRIC"; "T1"; "T1C5"] "X2Y2" [] st
              2%float 2%float Hs eq_refl)
    as (stp & h & Hp & Hlen & Hh & _ & _ & _ & _ & Hrad).
  exists st, h. split; [reflexivity|].
  assert (Hz : length (List.filter (is_coordinate ScanModel.Sscanf_XfYf)
                        ["INCH"; "T1C0.8"; "METRIC"; "T1"; "T1C5"]) = 0%nat)
    by (vm_compute; reflexivity).
  rewrite Hz in Hlen. rewrite Hlen in Hh. split; [exact Hh|].
  apply (Hrad 1%Z).
  eexists ["INCH"; "T1C0.8"; "METRIC"], ["T1C5"], _, _.
  split; [reflexivity|]. split.
  { eexists ["INCH"], "T1C0.8", ["METRIC"], _.
    split; [reflexivity|]. split; [vm_compute; reflexivity|].
    split; [reflexivity|]. split; [reflexivity|].
    repeat constructor. intros q. vm_compute. discriminate. }
  split; [vm_compute; reflexivity|]. split; [vm_compute; reflexivity|].
  split; [vm_compute; reflexivity|]. vm_compute. reflexivity.
Defined.


